(** * bedup: the tracking module (bedup/tracking.py)

    A shallow embedding of the scanner ([track_updated_files]), of the
    grouper ([windowed_query], [clear_updates], [dedup_tracked]) and of
    the deduper ([dedup_tracked1]), followed by the properties proved
    about them.

    Python integers are unbounded, so every number is a [Z].  The
    SQLAlchemy session is a finite map from the natural key of the
    [inode] table, [(vol_id, ino)], to the remaining columns of a row;
    ORM objects held by the program ([skipped], [comm3.inodes], ...) are
    references to rows, that is keys of that map. *)

From Stdlib Require Import ZArith List Lia Bool.
From stdpp Require Import base option list sorting gmap fin_maps.

Local Open Scope Z_scope.

(** ** Exceptions *)

(** [IOError] carries an errno; the other exceptions of the module are
    the failed [assert] of the clone loop, a failed dictionary lookup,
    an unpacking of the wrong length, an attribute of None, an index
    out of a list and a value of a type that an operation refuses. *)
Inductive exn : Type :=
  | IOError (errno : Z)
  | AssertionError
  | KeyError (k : Z)
  | ValueError
  | AttributeError
  | IndexError
  | TypeError.

Inductive result (A : Type) : Type :=
  | Ok (a : A)
  | Raise (e : exn).
Arguments Ok {A} a.
Arguments Raise {A} e.

Global Instance exn_eq_dec : EqDecision exn.
Proof. solve_decision. Defined.

Global Instance result_eq_dec {A : Type} `{EqDecision A} : EqDecision (result A).
Proof. solve_decision. Defined.

Global Instance result_ret : MRet result := fun _ a => Ok a.
Global Instance result_bind : MBind result := fun _ _ f m =>
  match m with
  | Ok a => f a
  | Raise e => Raise e
  end.

(** errno.ENOENT, errno.EACCES, errno.ETXTBSY on Linux. *)
Definition ENOENT : Z := 2.
Definition EACCES : Z := 13.
Definition ETXTBSY : Z := 26.

(** ** Constants of the module *)

Definition WINDOW_SIZE : nat := 200.

(** lib.BTRFS_INODE_ITEM_KEY *)
Definition BTRFS_INODE_ITEM_KEY : Z := 1.

(** stat.S_ISREG: [(mode & 0o170000) == 0o100000]. *)
Definition S_IFMT : Z := 61440.
Definition S_IFREG : Z := 32768.
Definition S_ISREG (mode : Z) : bool := Z.land mode S_IFMT =? S_IFREG.

(** ** The kernel adapter

    The functions imported from [.btrfs], [.dedup] and [.openat] are
    bindings to ioctls and system calls.  Their answers are inputs of
    the embedding: a file is named by its descriptor, a path by a
    number. *)
Class Kernel : Type := {
  (** [lookup_ino_path_one(vol_fd, ino)]: a path, or the errno of the
      IOError *)
  lookup_ino_path_one : Z -> Z -> Z + Z;
  (** [fopenat_rw(vol_fd, path)]: the descriptor of the opened file, or
      the errno of the IOError *)
  fopenat_rw : Z -> Z -> Z + Z;
  (** [ImmutableFDs(fds).fds_in_write_use] *)
  fds_in_write_use : list Z -> list Z;
  (** the SHA-1 digest of what [afile.read] returns until end of file *)
  sha1_digest : Z -> Z;
  (** [os.fstat(fd)] as [(st_ino, st_dev)] *)
  fstat : Z -> Z * Z;
  (** [afile.tell()] once the file was read to its end *)
  tell : Z -> Z;
  (** [cmp_files(sfile, dfile)], on descriptors: whether the two files
      hold the same bytes, or the exception of a read that fails *)
  cmp_files : Z -> Z -> result bool;
  (** [clone_data(dest=dfd, src=sfd, check_first=True)] as
      [clone_data dfd sfd]: whether extents were shared, or the
      exception of an ioctl that fails *)
  clone_data : Z -> Z -> result bool;
  (** [fopenat(vol_fd, path)], read-only: a descriptor or an errno *)
  fopenat : Z -> Z -> Z + Z;
  (** the hash of the head of the file read through a descriptor, and
      the hash of its extent map *)
  mini_hash_of_file : Z -> Z;
  fiemap_hash_of_file : Z -> Z;
}.

(** ** SQLAlchemy

    [bool(clause)] for the clause that [window_start >= Inode.size]
    builds, as [clause_bool window_start].  Python asks for the truth
    value of the left comparison of a chained comparison.  SQLAlchemy
    gives the rows no part in it: the call raises TypeError where the
    library defines no truth value for an ordering of a column and a
    number, and answers a boolean where it does.  The answer is an
    input of the embedding. *)
Class Sqlalchemy : Type := {
  clause_bool : Z -> result bool;
}.

(** ** The tracking store (model.py) *)

(** The persistent and the transient attributes of a [Volume]. *)
Record Volume : Type := mkVolume {
  vol_id : Z;
  vol_fd : Z;
  vol_st_dev : Z;
  size_cutoff : Z;
  last_tracked_generation : Z;
  last_tracked_size_cutoff : option Z;
}.

Definition set_tracked (gen : Z) (cutoff : option Z) (vol : Volume) : Volume :=
  {| vol_id := vol_id vol; vol_fd := vol_fd vol; vol_st_dev := vol_st_dev vol;
     size_cutoff := size_cutoff vol;
     last_tracked_generation := gen;
     last_tracked_size_cutoff := cutoff |}.

Definition set_size_cutoff (c : Z) (vol : Volume) : Volume :=
  {| vol_id := vol_id vol; vol_fd := vol_fd vol; vol_st_dev := vol_st_dev vol;
     size_cutoff := c;
     last_tracked_generation := last_tracked_generation vol;
     last_tracked_size_cutoff := last_tracked_size_cutoff vol |}.

(** The columns of an [Inode] row besides its key [(vol_id, ino)]. *)
Record Inode : Type := mkInode {
  size : Z;
  has_updates : bool;
  mini_hash : option Z;
  fiemap_hash : option Z;
}.

Definition set_size (s : Z) (i : Inode) : Inode :=
  {| size := s; has_updates := has_updates i;
     mini_hash := mini_hash i; fiemap_hash := fiemap_hash i |}.

Definition set_has_updates (b : bool) (i : Inode) : Inode :=
  {| size := size i; has_updates := b;
     mini_hash := mini_hash i; fiemap_hash := fiemap_hash i |}.

Definition set_mini_hash (h : Z) (i : Inode) : Inode :=
  {| size := size i; has_updates := has_updates i;
     mini_hash := Some h; fiemap_hash := fiemap_hash i |}.

Definition set_fiemap_hash (h : Z) (i : Inode) : Inode :=
  {| size := size i; has_updates := has_updates i;
     mini_hash := mini_hash i; fiemap_hash := Some h |}.

(** An [Inode] object of the session: the key of its row. *)
Abbreviation InodeRef := (Z * Z)%type.

(** The [inode] table. *)
Abbreviation Store := (gmap (Z * Z) Inode).

(** Modelled from the spec: [get_or_create] of model.py, which is not
    part of this module.  "get_or_create(entity, natural_key) -> (row,
    created_flag)": the row of that key when there is one, and else a
    new row, added to the session, whose columns are still unset. *)
Definition get_or_create (store : Store) (key : InodeRef) : Inode * bool :=
  match store !! key with
  | Some row => (row, false)
  | None => (mkInode 0 false None None, true)
  end.

(** ** The scanner: [track_updated_files] *)

(** One record of the buffer that BTRFS_IOC_TREE_SEARCH fills: the
    fields of the search header the scanner reads, and the three fields
    it reads from the inode item that follows a header of type
    BTRFS_INODE_ITEM_KEY. *)
Record SearchItem : Type := mkSearchItem {
  sh_objectid : Z;
  sh_type : Z;
  item_generation : Z;
  item_size : Z;
  item_mode : Z;
}.

(** [min_generation], from the watermark of the last scan. *)
Definition min_generation (vol : Volume) : Z :=
  match last_tracked_size_cutoff vol with
  | Some s_prev =>
      if s_prev <=? size_cutoff vol
      then last_tracked_generation vol + 1
      else 0
  | None => 0
  end.

(** The test [vol.last_tracked_size_cutoff and size >=
    vol.last_tracked_size_cutoff]: None and 0 are both false. *)
Definition covered_last_time (vol : Volume) (sz : Z) : bool :=
  match last_tracked_size_cutoff vol with
  | Some s_prev => negb (s_prev =? 0) && (s_prev <=? sz)
  | None => false
  end.

(** The three [continue] of the filter, in the order of the code. *)
Definition filtered_out (vol : Volume) (min_gen : Z) (it : SearchItem) : bool :=
  if item_size it <? size_cutoff vol then true
  else if (if covered_last_time vol (item_size it)
           then item_generation it <=? last_tracked_generation vol
           else item_generation it <? min_gen) then true
  else negb (S_ISREG (item_mode it)).

(** The body of the loop over the records of one buffer. *)
Definition track_item `{Kernel} (vol : Volume) (min_gen : Z)
    (store : Store) (it : SearchItem) : Store :=
  if sh_type it =? BTRFS_INODE_ITEM_KEY then
    if filtered_out vol min_gen it then store
    else
      let ino := sh_objectid it in
      let key := (vol_id vol, ino) in
      let '(inode, inode_created) := get_or_create store key in
      let inode := set_has_updates true (set_size (item_size it) inode) in
      match lookup_ino_path_one (vol_fd vol) ino with
      | inr _ =>
          (* sess.expunge of the pending row, or sess.delete of the old one *)
          if inode_created then store else delete key store
      | inl _ =>
          (* a path that does not decode only skips the progress update *)
          <[key := inode]> store
      end
  else store.

(** The [while True] loop.  [replies] are the successive answers of
    BTRFS_IOC_TREE_SEARCH: a buffer of records, or an IOError that the
    code re-raises; the loop ends at the first empty buffer, which is
    also what the kernel answers once [replies] is used up. *)
Fixpoint scan_replies `{Kernel} (vol : Volume) (min_gen : Z)
    (replies : list (result (list SearchItem))) (store : Store) : result Store :=
  match replies with
  | [] => Ok store
  | Raise e :: _ => Raise e
  | Ok [] :: _ => Ok store
  | Ok items :: rest =>
      scan_replies vol min_gen rest (foldl (track_item vol min_gen) store items)
  end.

(** [track_updated_files(sess, vol, tt)], with [top_generation] the
    answer of [get_root_generation(vol.fd)]. *)
Definition track_updated_files `{Kernel} (top_generation : Z)
    (replies : list (result (list SearchItem)))
    (store : Store) (vol : Volume) : result (Store * Volume) :=
  let min_gen := min_generation vol in
  if min_gen >? top_generation then Ok (store, vol)
  else
    store' ← scan_replies vol min_gen replies store;
    Ok (store', set_tracked top_generation (Some (size_cutoff vol)) vol).

(** ** The grouper: [windowed_query], [clear_updates], [dedup_tracked] *)

(** The rows of the three commonality views, with the relationship
    [inodes] as the references of the member rows. *)
Record Commonality1 : Type := mkComm1 {
  c1_size : Z;
  c1_inode_count : Z;
  c1_inodes : list InodeRef;
}.

Record Commonality3 : Type := mkComm3 {
  c3_size : Z;
  c3_inode_count : Z;
  c3_inodes : list InodeRef;
}.

Record Commonality2 : Type := mkComm2 {
  c2_size : Z;
  c2_inode_count : Z;
  c2_inodes : list InodeRef;
}.

(** The relationships [comm1.comm2] and [comm2.comm3] are queries of
    model.py that run when the loop reaches them, on the rows as they
    are by then. *)
Class Mappings : Type := {
  comm2_of : Store -> Commonality1 -> list Commonality2;
  comm3_of : Store -> Commonality2 -> list Commonality3;
}.

(** [query.order_by(-attr)]: a stable insertion sort, largest first. *)
Fixpoint insert_desc {A : Type} (attr : A -> Z) (x : A) (l : list A) : list A :=
  match l with
  | [] => [x]
  | y :: l' => if attr y <? attr x then x :: l else y :: insert_desc attr x l'
  end.

Definition order_by_desc {A : Type} (attr : A -> Z) (l : list A) : list A :=
  foldr (insert_desc attr) [] l.

(** What the generator [windowed_query] does, in order: the elements it
    yields and the calls of its callback [clear_updates]. *)
Inductive GenEvent : Type :=
  | Yield (el : Commonality1)
  | ClearUpdates (window_start window_end : Z).

(** [windowed_query(window_start, query, attr, per, clear_updates)] on
    the rows [query] selects.  A unit of [fuel] is one turn of the
    [while True] loop; [None] is a run that needs more of them. *)
Fixpoint windowed_query (fuel : nat) (window_start : Z)
    (query : list Commonality1) (attr : Commonality1 -> Z) (per : nat)
    : option (list GenEvent) :=
  match fuel with
  | O => None
  | S fuel' =>
      let li :=
        take per (filter (fun el => attr el <=? window_start)
                         (order_by_desc attr query)) in
      match last li with
      | None => Some [ClearUpdates window_start 0]
      | Some el =>
          let window_end := c1_size el in
          rest ← windowed_query fuel' (window_end - 1) query attr per;
          Some (map Yield li ++ ClearUpdates window_start window_end :: rest)
      end
  end.

(** A [DedupEvent] with its [DedupEventInode] rows, in the order they
    are added. *)
Record DedupEvent : Type := mkDedupEvent {
  item_size_of : Z;
  event_inodes : list InodeRef;
}.

(** The calls that the claims are about, as the run makes them. *)
Inductive Call : Type :=
  | CallSetrlimit (soft hard : Z)
  | CallMiniHash (inode : InodeRef)
  | CallOpenRW (inode : InodeRef)
  | CallClone (dfd sfd : Z).

(** The state a run of the dedup pass carries: the [inode] table, the
    list [skipped] that [dedup_tracked] shares with [dedup_tracked1] and
    [clear_updates], the events written, the local [ofile_soft], and
    the calls made so far. *)
Record Session : Type := mkSession {
  inodes : Store;
  skipped : list InodeRef;
  dedup_events : list DedupEvent;
  ofile_soft : Z;
  calls : list Call;
}.

Definition with_inodes (f : Store -> Store) (st : Session) : Session :=
  mkSession (f (inodes st)) (skipped st) (dedup_events st) (ofile_soft st) (calls st).

Definition with_skipped (f : list InodeRef -> list InodeRef) (st : Session) : Session :=
  mkSession (inodes st) (f (skipped st)) (dedup_events st) (ofile_soft st) (calls st).

Definition add_event (e : DedupEvent) (st : Session) : Session :=
  mkSession (inodes st) (skipped st) (dedup_events st ++ [e]) (ofile_soft st) (calls st).

Definition set_ofile_soft (n : Z) (st : Session) : Session :=
  mkSession (inodes st) (skipped st) (dedup_events st) n (calls st).

Definition add_call (c : Call) (st : Session) : Session :=
  mkSession (inodes st) (skipped st) (dedup_events st) (ofile_soft st) (calls st ++ [c]).

(** The expression [window_start >= Inode.size >= window_end].  Python
    evaluates a chained comparison [a >= b >= c] as [(a >= b) and
    (b >= c)]: the left operand is the clause [Inode.size <=
    window_start], [and] asks for its truth value, and the value of the
    expression is the left clause when that is false and the right
    clause, [Inode.size >= window_end], when it is true.  The result is
    the test that the clause makes on a row. *)
Definition size_clause `{Sqlalchemy} (window_start window_end : Z)
    : result (Inode -> bool) :=
  b ← clause_bool window_start;
  Ok (if b : bool
      then (fun row => window_end <=? size row)
      else (fun row => size row <=? window_start)).

(** The WHERE clause of the UPDATE in [clear_updates]:
    [and_(Inode.vol_id.in_(vol_ids), size_test)]. *)
Definition in_window (vol_ids : list Z) (size_test : Inode -> bool)
    (key : InodeRef) (row : Inode) : bool :=
  bool_decide (key.1 ∈ vol_ids) && size_test row.

(** The closure [clear_updates(window_start, window_end)] of
    [dedup_tracked]: the arguments of [sess.execute] are evaluated,
    then the UPDATE runs, then [has_updates = True] on every inode of
    [skipped], then [skipped[:] = []]. *)
Definition clear_updates `{Sqlalchemy} (vol_ids : list Z)
    (window_start window_end : Z) (st : Session) : result Session :=
  size_test ← size_clause window_start window_end;
  let updated :=
    map_imap (fun key row =>
      Some (if in_window vol_ids size_test key row
            then set_has_updates false row else row)) (inodes st) in
  let restored :=
    foldl (fun m inode => alter (set_has_updates true) inode m)
          updated (skipped st) in
  Ok (mkSession restored [] (dedup_events st) (ofile_soft st) (calls st)).

(** Modelled from the spec: the view [Commonality1] that
    [comm_mappings(fs.id, vol_ids)] of model.py builds.
    "one per (size) value shared by >= 2 inodes across the given volume
    set ... (SQL GROUP BY size HAVING COUNT( * ) >= 2 or equivalent)". *)
Definition filtered_inodes (store : Store) (vol_ids : list Z)
    : list (InodeRef * Inode) :=
  filter (fun kv => bool_decide (kv.1.1 ∈ vol_ids)) (map_to_list store).

Definition comm1_rows (store : Store) (vol_ids : list Z) : list Commonality1 :=
  let fi := filtered_inodes store vol_ids in
  omap (fun s =>
          let members := filter (fun kv => size kv.2 =? s) fi in
          if (2 <=? length members)%nat
          then Some (mkComm1 s (Z.of_nat (length members)) (map fst members))
          else None)
       (remove_dups (map (fun kv => size kv.2) fi)).

(** [sess.query(Inode).order_by(-Inode.size).first().size]: the query is
    on the whole [inode] table.  [first()] of no row is None, whose
    [.size] raises. *)
Definition initial_window_start (store : Store) : result Z :=
  match head (order_by_desc (fun kv : InodeRef * Inode => size kv.2)
                            (map_to_list store)) with
  | Some kv => Ok (size kv.2)
  | None => Raise AttributeError
  end.

(** ** The deduper: [dedup_tracked1] *)

(** A [for] loop whose body may raise. *)
Fixpoint for_each {A S : Type} (body : S -> A -> result S) (l : list A)
    (st : S) : result S :=
  match l with
  | [] => Ok st
  | x :: l' => st' ← body st x; for_each body l' st'
  end.

(** [inode.has_updates], read through a reference. *)
Definition inode_has_updates (store : Store) (inode : InodeRef) : bool :=
  match store !! inode with
  | Some row => has_updates row
  | None => false
  end.

(** [skipped.append(inode)] *)
Definition skip (inode : InodeRef) (st : Session) : Session :=
  with_skipped (fun l => l ++ [inode]) st.

(** Modelled from the spec: the methods [mini_hash_from_file] and
    [fiemap_hash_from_file] of [Inode] in model.py, which are not part
    of this module.  "computes and persists Inode.mini_hash", "a
    deterministic hash over a bounded prefix of the file"; "computes
    Inode.fiemap_hash": the hash of the file behind the descriptor is
    stored in the row. *)
Definition mini_hash_from_file `{Kernel} (inode : InodeRef) (rfd : Z)
    (store : Store) : Store :=
  alter (set_mini_hash (mini_hash_of_file rfd)) inode store.

Definition fiemap_hash_from_file `{Kernel} (inode : InodeRef) (rfd : Z)
    (store : Store) : Store :=
  alter (set_fiemap_hash (fiemap_hash_of_file rfd)) inode store.

(** The files opened for a cohort.  A file object is its descriptor, so
    the lists [files] and [fds] of the code are one list here; the
    dictionary [fd_names] only feeds the notifications. *)
Record Opened : Type := mkOpened {
  files : list Z;
  fd_inodes : gmap Z InodeRef;
}.

Section Deduper.
Context `{Kernel} `{Mappings} `{Sqlalchemy}.

(** [inode.vol]: the volume of a [vol_id]. *)
Variable volume_of : Z -> Volume.

(** The body of [for inode in comm1.inodes]. *)
Definition mini_hash_step (st : Session) (inode : InodeRef) : result Session :=
  let vfd := vol_fd (volume_of inode.1) in
  match lookup_ino_path_one vfd inode.2 with
  | inr e =>
      if negb (e =? ENOENT) then Raise (IOError e)
      else Ok (with_inodes (delete inode) st)
  | inl path =>
      match fopenat vfd path with
      | inr e => Raise (IOError e)
      | inl rfd =>
          Ok (add_call (CallMiniHash inode)
                (with_inodes (mini_hash_from_file inode rfd) st))
      end
  end.

(** The body of [for inode in comm2.inodes]. *)
Definition fiemap_hash_step (st : Session) (inode : InodeRef) : result Session :=
  let vfd := vol_fd (volume_of inode.1) in
  match lookup_ino_path_one vfd inode.2 with
  | inr e =>
      if negb (e =? ENOENT) then Raise (IOError e)
      else Ok (with_inodes (delete inode) st)
  | inl path =>
      match fopenat vfd path with
      | inr e => Raise (IOError e)
      | inl rfd => Ok (with_inodes (fiemap_hash_from_file inode rfd) st)
      end
  end.

(** The body of the first [for inode in comm3.inodes] that is reached
    once the budget allows: path lookup, then [fopenat_rw]. *)
Definition open_step (acc : Session * Opened) (inode : InodeRef)
    : result (Session * Opened) :=
  let '(st, op) := acc in
  let vfd := vol_fd (volume_of inode.1) in
  match lookup_ino_path_one vfd inode.2 with
  | inr e =>
      if e =? ENOENT then Ok (with_inodes (delete inode) st, op)
      else Raise (IOError e)
  | inl path =>
      let st := add_call (CallOpenRW inode) st in
      match fopenat_rw vfd path with
      | inr e =>
          if e =? ETXTBSY then Ok (skip inode st, op)
          else if e =? EACCES then Ok (skip inode st, op)
          else if e =? ENOENT then Ok (skip inode st, op)
          else Raise (IOError e)
      | inl fd =>
          Ok (st, mkOpened (files op ++ [fd]) (<[fd := inode]> (fd_inodes op)))
      end
  end.

(** The body of [for afile in files] under the immutability lock. *)
Definition hash_step (comm3 : Commonality3) (in_write_use : list Z)
    (fdi : gmap Z InodeRef) (acc : Session * gmap Z (list Z)) (fd : Z)
    : result (Session * gmap Z (list Z)) :=
  let '(st, by_hash) := acc in
  match fdi !! fd with
  | None => Raise (KeyError fd)
  | Some inode =>
      if bool_decide (fd ∈ in_write_use) then Ok (skip inode st, by_hash)
      else
        let digest := sha1_digest fd in
        let st_ := fstat fd in
        if negb (st_.1 =? inode.2) then Ok (skip inode st, by_hash)
        else if negb (st_.2 =? vol_st_dev (volume_of inode.1))
        then Ok (skip inode st, by_hash)
        else
          let sz := tell fd in
          if negb (sz =? c3_size comm3) then
            if sz <? size_cutoff (volume_of inode.1)
            then Ok (with_inodes (delete inode) st, by_hash)
            else Ok (skip inode st, by_hash)
          else
            Ok (st, <[digest := default [] (by_hash !! digest) ++ [fd]]> by_hash)
  end.

(** [for dfile in dfiles]: a failed comparison is [assert False]; an
    exception of [cmp_files] or of [clone_data] is not handled and ends
    the loop. *)
Fixpoint clone_loop (sfd : Z) (dfiles : list Z) (st : Session)
    (dfiles_successful : list Z) : result (Session * list Z) :=
  match dfiles with
  | [] => Ok (st, dfiles_successful)
  | dfd :: rest =>
      same ← cmp_files sfd dfd;
      if negb same then Raise AssertionError
      else
        let st := add_call (CallClone dfd sfd) st in
        cloned ← clone_data dfd sfd;
        if cloned : bool
        then clone_loop sfd rest st (dfiles_successful ++ [dfd])
        else clone_loop sfd rest st dfiles_successful
  end.

(** [fd_inodes[afile.fileno()]] for each file of a list. *)
Fixpoint inodes_of_files (fdi : gmap Z InodeRef) (fds : list Z)
    : result (list InodeRef) :=
  match fds with
  | [] => Ok []
  | fd :: rest =>
      match fdi !! fd with
      | None => Raise (KeyError fd)
      | Some inode => l ← inodes_of_files fdi rest; Ok (inode :: l)
      end
  end.

(** The body of [for fileset in by_hash.itervalues()]. *)
Definition dedup_fileset (comm3 : Commonality3) (fdi : gmap Z InodeRef)
    (st : Session) (fileset : list Z) : result Session :=
  if (length fileset <? 2)%nat then Ok st
  else
    match fileset with
    | [] => Ok st
    | sfd :: dfiles =>
        r ← clone_loop sfd dfiles st [];
        match r.2 with
        | [] => Ok r.1
        | _ :: _ =>
            evti ← inodes_of_files fdi (sfd :: r.2);
            Ok (add_event (mkDedupEvent (c3_size comm3) evti) r.1)
        end
    end.

(** What is done for a cohort once the budget allows: open, hash,
    clone.  The buckets of [by_hash] are visited in the order of the
    dictionary. *)
Definition process_comm3 (comm3 : Commonality3) (st : Session) : result Session :=
  a ← for_each open_step (c3_inodes comm3) (st, mkOpened [] ∅);
  let op := a.2 in
  let in_write_use := fds_in_write_use (files op) in
  b ← for_each (hash_step comm3 in_write_use (fd_inodes op)) (files op) (a.1, ∅);
  for_each (dedup_fileset comm3 (fd_inodes op)) (map snd (map_to_list b.2)) b.1.

(** [ofile_req = 2 * count3 + ofile_reserved] *)
Definition ofile_req (ofile_reserved : Z) (comm3 : Commonality3) : Z :=
  2 * c3_inode_count comm3 + ofile_reserved.

(** From [ofile_req = ...] to the end of the body of the loop over
    [comm1.comm2], for the one [comm3] of a [comm2]. *)
Definition dedup_comm3 (ofile_reserved ofile_hard : Z)
    (comm3 : Commonality3) (st : Session) : result Session :=
  let req := ofile_req ofile_reserved comm3 in
  if req >? ofile_soft st then
    if req <=? ofile_hard then
      process_comm3 comm3
        (set_ofile_soft req (add_call (CallSetrlimit req ofile_hard) st))
    else
      Ok (with_skipped
            (fun l => l ++ filter (fun i => inode_has_updates (inodes st) i = true)
                                  (c3_inodes comm3)) st)
  else process_comm3 comm3 st.

(** The body of [for comm2 in comm1.comm2]; [comm3, = comm2.comm3]
    raises unless there is one row. *)
Definition dedup_comm2 (ofile_reserved ofile_hard : Z)
    (st : Session) (comm2 : Commonality2) : result Session :=
  st ← for_each fiemap_hash_step (c2_inodes comm2) st;
  match comm3_of (inodes st) comm2 with
  | [] => Ok st
  | [comm3] => dedup_comm3 ofile_reserved ofile_hard comm3 st
  | _ => Raise ValueError
  end.

(** The body of [for comm1 in query]. *)
Definition dedup_comm1 (ofile_reserved ofile_hard : Z)
    (st : Session) (comm1 : Commonality1) : result Session :=
  st ← for_each mini_hash_step (c1_inodes comm1) st;
  for_each (dedup_comm2 ofile_reserved ofile_hard)
           (comm2_of (inodes st) comm1) st.

(** [dedup_tracked1]: the loop draws from the generator, which calls
    [clear_updates] between two pages. *)
Definition dedup_tracked1 (vol_ids : list Z) (ofile_reserved ofile_hard : Z)
    (query : list GenEvent) (st : Session) : result Session :=
  for_each (fun st ev =>
              match ev with
              | Yield comm1 => dedup_comm1 ofile_reserved ofile_hard st comm1
              | ClearUpdates ws we => clear_updates vol_ids ws we st
              end) query st.

(** [ofile_reserved = 7 + len(volset)] *)
Definition ofile_reserved_of (volset : list Volume) : Z :=
  7 + Z.of_nat (length volset).

(** [dedup_tracked(sess, volset, tt)], with [vol_fs] the filesystem of
    a volume ([vol.fs]) and [rlimit] the answer of
    [resource.getrlimit(resource.RLIMIT_OFILE)].  [volset[0]] of an
    empty list raises, and so does the [assert] on volumes of two
    filesystems.  [None]: the generator needs more fuel. *)
Definition dedup_tracked (fuel : nat) (vol_fs : Volume -> Z)
    (volset : list Volume) (rlimit : Z * Z)
    (store : Store) : option (result Session) :=
  match volset with
  | [] => Some (Raise IndexError)
  | vol0 :: _ =>
      let fs := vol_fs vol0 in
      let vol_ids := map vol_id volset in
      if negb (forallb (fun vol => vol_fs vol =? fs) volset)
      then Some (Raise AssertionError)
      else
        let query := comm1_rows store vol_ids in
        let st := mkSession store [] [] rlimit.1 [] in
        if (length query =? 0)%nat then Some (Ok st)
        else
          match initial_window_start store with
          | Raise e => Some (Raise e)
          | Ok window_start =>
              evs ← windowed_query fuel window_start query c1_size WINDOW_SIZE;
              Some (dedup_tracked1 vol_ids (ofile_reserved_of volset)
                                   rlimit.2 evs st)
          end
  end.
End Deduper.

(** ** Runs of the scanner *)

(** One invocation of the scanner on a volume: [get_vol] stores the
    size cutoff given on the command line, if any, and
    [track_updated_files] runs with the root generation read at its
    start and the answers of the tree search. *)
Record ScanRun : Type := mkScanRun {
  run_size_cutoff : option Z;
  run_top_generation : Z;
  run_replies : list (result (list SearchItem));
}.

(** [if size_cutoff is not None: vol.size_cutoff = size_cutoff] *)
Definition get_vol_size_cutoff (size_cutoff_arg : option Z) (vol : Volume) : Volume :=
  match size_cutoff_arg with
  | Some c => set_size_cutoff c vol
  | None => vol
  end.

(** The volume row after each scan of a series that returned.  A scan
    that raises never reaches a [sess.commit()]: the next one starts
    from the rows as they were. *)
Fixpoint scan_history `{Kernel} (runs : list ScanRun) (store : Store)
    (vol : Volume) : list Volume :=
  match runs with
  | [] => []
  | r :: rest =>
      match track_updated_files (run_top_generation r) (run_replies r) store
              (get_vol_size_cutoff (run_size_cutoff r) vol) with
      | Ok sv => sv.2 :: scan_history rest sv.1 sv.2
      | Raise _ => scan_history rest store vol
      end
  end.

(** ** The per-record policy, in the words of the specification *)

(** "when S_prev is non-null and size >= S_prev, its inode_generation
    is not strictly greater than G_prev; or, otherwise, its
    inode_generation is below min_gen" *)
Definition generation_filtered (vol : Volume) (it : SearchItem) : Prop :=
  match last_tracked_size_cutoff vol with
  | Some s_prev =>
      if decide (s_prev <= item_size it)
      then ¬ (last_tracked_generation vol < item_generation it)
      else item_generation it < min_generation vol
  | None => item_generation it < min_generation vol
  end.

Definition skipped_by_policy (vol : Volume) (it : SearchItem) : Prop :=
  item_size it < size_cutoff vol
  ∨ generation_filtered vol it
  ∨ S_ISREG (item_mode it) = false.

(** The row that the scanner stores for a record. *)
Definition upserted (store : Store) (key : InodeRef) (it : SearchItem) : Inode :=
  set_has_updates true (set_size (item_size it) (get_or_create store key).1).

(** The policy with "every record passing all filters is upserted with
    has_updates=true and size set from the record". *)
Definition record_policy_as_stated `{Kernel} (vol : Volume) (store : Store)
    (it : SearchItem) : Prop :=
  let store' := track_item vol (min_generation vol) store it in
  (skipped_by_policy vol it → store' = store)
  ∧ (¬ skipped_by_policy vol it →
     ∃ row, store' !! (vol_id vol, sh_objectid it) = Some row
            ∧ has_updates row = true ∧ size row = item_size it).

(** ** Example data *)

(** A kernel where every path lookup and every open succeeds, all files
    are equal and every clone shares new extents. *)
Definition ex_kernel : Kernel := {|
  lookup_ino_path_one := fun _ ino => inl ino;
  fopenat_rw := fun _ path => inl (100 + path);
  fds_in_write_use := fun _ => [];
  sha1_digest := fun _ => 7;
  fstat := fun fd => (fd - 100, 5);
  tell := fun _ => 10485760;
  cmp_files := fun _ _ => Ok true;
  clone_data := fun _ _ => Ok true;
  fopenat := fun _ path => inl (200 + path);
  mini_hash_of_file := fun _ => 11;
  fiemap_hash_of_file := fun _ => 13;
|}.

(** The same kernel once the files are unlinked: path lookup fails with
    ENOENT. *)
Definition ex_kernel_gone : Kernel := {|
  lookup_ino_path_one := fun _ _ => inr ENOENT;
  fopenat_rw := fun _ path => inl (100 + path);
  fds_in_write_use := fun _ => [];
  sha1_digest := fun _ => 7;
  fstat := fun fd => (fd - 100, 5);
  tell := fun _ => 10485760;
  cmp_files := fun _ _ => Ok true;
  clone_data := fun _ _ => Ok true;
  fopenat := fun _ path => inl (200 + path);
  mini_hash_of_file := fun _ => 11;
  fiemap_hash_of_file := fun _ => 13;
|}.

(** Volume 1, scanned before at generation 41 with the cutoff of 8 MiB
    that it still has. *)
Definition ex_vol : Volume := mkVolume 1 3 5 8388608 41 (Some 8388608).

(** A regular file of 10 MiB, inode 257, changed at generation 50. *)
Definition ex_item : SearchItem := mkSearchItem 257 1 50 10485760 33188.

(** The row of inode 257 of volume 1, as an earlier scan left it. *)
Definition ex_store : Store :=
  {[ (1, 257) := mkInode 10485760 false (Some 11) None ]}.

(** Three scans of [ex_vol]: unchanged, then at a lower cutoff, then
    after new transactions. *)
Definition ex_runs : list ScanRun :=
  [ mkScanRun None 41 [Ok [ex_item]];
    mkScanRun (Some 4194304) 41 [Ok [ex_item]];
    mkScanRun None 60 [Ok [ex_item]; Ok []] ].

(** ** The windows of a run of the generator *)

(** A size is in the range of a call [clear_updates(window_start,
    window_end)]. *)
Definition covers (s : Z) (ev : GenEvent) : bool :=
  match ev with
  | ClearUpdates window_start window_end =>
      (window_end <=? s) && (s <=? window_start)
  | Yield _ => false
  end.

(** The runs that start at [window_start]: either the call
    [clear_updates(window_start, 0)] of an empty page, or a page of
    rows whose sizes are in [[window_end, window_start]], with
    [window_end] the size of its last row, then the call
    [clear_updates(window_start, window_end)], then a run that starts
    at [window_end - 1]. *)
Inductive windows : Z → list GenEvent → Prop :=
  | windows_empty_page (window_start : Z) :
      windows window_start [ClearUpdates window_start 0]
  | windows_page (window_start window_end : Z) (page : list Commonality1)
      (rest : list GenEvent) :
      c1_size <$> last page = Some window_end →
      Forall (fun el => window_end <= c1_size el <= window_start) page →
      windows (window_end - 1) rest →
      windows window_start
        (map Yield page ++ ClearUpdates window_start window_end :: rest).

(** Three size groups, seen in pages of two. *)
Definition ex_query : list Commonality1 :=
  [ mkComm1 10 2 [(1, 1); (1, 2)];
    mkComm1 30 2 [(1, 3); (1, 4)];
    mkComm1 20 3 [(1, 5); (1, 6); (1, 7)] ].

(** ** The bookkeeping of a window, in the words of the specification *)

(** "exactly the Inode rows whose vol_id is in vol_ids and whose size
    lies in the inclusive range [low, high] have has_updates set to
    false; inodes outside that size range or outside those volumes are
    unchanged" *)
Definition clear_updates_as_stated `{Sqlalchemy} (vol_ids : list Z)
    (low high : Z) (st : Session) : Prop :=
  ∃ st', clear_updates vol_ids high low st = Ok st'
    ∧ ∀ key row, inodes st !! key = Some row →
        inodes st' !! key
        = Some (if bool_decide (key.1 ∈ vol_ids ∧ low <= size row <= high)
                then set_has_updates false row else row).

(** Volume 1 holds a file of 5 bytes, two of 50 and one of 500, all
    still to be deduplicated.  The one size group is the page of the
    first window, so the calls of a pass are [clear_updates(500, 50)]
    and then [clear_updates(49, 0)]. *)
Definition ex_first_window : Session :=
  mkSession (list_to_map [ ((1, 1), mkInode 5 true None None);
                           ((1, 2), mkInode 50 true None None);
                           ((1, 3), mkInode 50 true None None);
                           ((1, 4), mkInode 500 true None None) ])
            [] [] 1024 [].

(** The same table at the second call of the pass, as the first call
    leaves it when it returns after inode 2 was skipped in the page: the
    rows of the window are cleared, but for the row of inode 2, and
    [skipped] is empty. *)
Definition ex_last_window : Session :=
  mkSession (list_to_map [ ((1, 1), mkInode 5 true None None);
                           ((1, 2), mkInode 50 true None None);
                           ((1, 3), mkInode 50 false None None);
                           ((1, 4), mkInode 500 false None None) ])
            [] [] 1024 [].

(** SQLAlchemy where a clause has no truth value. *)
Definition ex_sqlalchemy : Sqlalchemy := {|
  clause_bool := fun _ => Raise TypeError;
|}.

(** [m] is the largest size among rows. *)
Definition is_max_size (rows : list (InodeRef * Inode)) (m : Z) : Prop :=
  Exists (fun kv => size kv.2 = m) rows
  ∧ Forall (fun kv => size kv.2 <= m) rows.

(** "the initial window start ... equals the maximum Inode.size taken
    over the inodes of the given volume set" *)
Definition window_start_as_stated (store : Store) (vol_ids : list Z) : Prop :=
  comm1_rows store vol_ids ≠ [] →
  ∃ m, initial_window_start store = Ok m
       ∧ is_max_size (filtered_inodes store vol_ids) m.

(** Two files of 10 MiB in volume 1 and one of 100 MiB in volume 2. *)
Definition ex_two_volumes : Store :=
  list_to_map [ ((1, 257), mkInode 10485760 true None None);
                ((1, 258), mkInode 10485760 true None None);
                ((2, 300), mkInode 104857600 true None None) ].

(** ** The opening of a cohort, in the words of the specification *)

(** "path lookup ENOENT -> delete Inode row, drop; open ENOENT -> skip;
    open ETXTBSY -> skip; open EACCES -> skip; other -> fatal" *)
Inductive OpenOutcome : Type :=
  | OpenDropped
  | OpenSkipped
  | OpenFile (fd : Z)
  | OpenFatal (errno : Z).

Global Instance OpenOutcome_eq_dec : EqDecision OpenOutcome.
Proof. solve_decision. Defined.

Definition open_outcome `{Kernel} (volume_of : Z → Volume)
    (inode : InodeRef) : OpenOutcome :=
  let vfd := vol_fd (volume_of inode.1) in
  match lookup_ino_path_one vfd inode.2 with
  | inr e => if decide (e = ENOENT) then OpenDropped else OpenFatal e
  | inl path =>
      match fopenat_rw vfd path with
      | inr e =>
          if decide (e = ENOENT ∨ e = ETXTBSY ∨ e = EACCES)
          then OpenSkipped else OpenFatal e
      | inl fd => OpenFile fd
      end
  end.

Definition is_fatal (o : OpenOutcome) : bool :=
  match o with
  | OpenFatal _ => true
  | _ => false
  end.

Definition opened_fd (o : OpenOutcome) : option Z :=
  match o with
  | OpenFile fd => Some fd
  | _ => None
  end.

(** A kernel where inode 258 is the image of a running program and
    inode 259 was unlinked. *)
Definition ex_kernel_busy : Kernel := {|
  lookup_ino_path_one := fun _ ino => if ino =? 259 then inr ENOENT else inl ino;
  fopenat_rw := fun _ path => if path =? 258 then inr ETXTBSY else inl (100 + path);
  fds_in_write_use := fun _ => [];
  sha1_digest := fun _ => 7;
  fstat := fun fd => (fd - 100, 5);
  tell := fun _ => 10485760;
  cmp_files := fun _ _ => Ok true;
  clone_data := fun _ _ => Ok true;
  fopenat := fun _ path => inl (200 + path);
  mini_hash_of_file := fun _ => 11;
  fiemap_hash_of_file := fun _ => 13;
|}.

(** A cohort of 4096 files of 10 MiB, of which two rows are loaded, and
    the session of a process whose limits on open files are
    (1024, 1024). *)
Definition ex_large_cohort : Commonality3 :=
  mkComm3 10485760 4096 [(1, 257); (1, 258)].

Definition ex_session : Session := mkSession ex_two_volumes [] [] 1024 [].

(** A cohort of three files. *)
Definition ex_cohort : list InodeRef := [(1, 257); (1, 258); (1, 259)].

(** ** The hashes of a size group and the events of a bucket, in the
    words of the specification *)

(** The path of the inode resolves. *)
Definition resolves `{Kernel} (volume_of : Z → Volume) (inode : InodeRef) : bool :=
  match lookup_ino_path_one (vol_fd (volume_of inode.1)) inode.2 with
  | inl _ => true
  | inr _ => false
  end.

(** The hash of the head of the file of an inode, when its path
    resolves and the file opens. *)
Definition expected_mini_hash `{Kernel} (volume_of : Z → Volume)
    (inode : InodeRef) : option Z :=
  let vfd := vol_fd (volume_of inode.1) in
  match lookup_ino_path_one vfd inode.2 with
  | inl path =>
      match fopenat vfd path with
      | inl rfd => Some (mini_hash_of_file rfd)
      | inr _ => None
      end
  | inr _ => None
  end.

(** "mini_hash is computed and persisted only for those member inodes
    that do not already have a cached mini_hash; members whose mini_hash
    is already recorded are not re-hashed" *)
Definition mini_hash_only_missing_as_stated `{Kernel} (volume_of : Z → Volume)
    (comm1 : Commonality1) (st : Session) : Prop :=
  ∀ st', for_each (mini_hash_step volume_of) (c1_inodes comm1) st = Ok st' →
    ∀ inode row h,
      inode ∈ c1_inodes comm1 →
      inodes st !! inode = Some row → mini_hash row = Some h →
      CallMiniHash inode ∉ calls st'.

(** "a DedupEvent row (with item_size equal to the cohort size) is
    created if and only if clone_data returned true for at least one
    destination in that bucket" *)
Definition bucket_event_as_stated `{Kernel} (comm3 : Commonality3)
    (fdi : gmap Z InodeRef) (st : Session) (sfd : Z) (dfiles : list Z) : Prop :=
  (∃ dfd, dfd ∈ dfiles ∧ clone_data dfd sfd = Ok true)
  ↔ (∃ st' evti,
       dedup_fileset comm3 fdi st (sfd :: dfiles) = Ok st'
       ∧ dedup_events st'
         = dedup_events st ++ [mkDedupEvent (c3_size comm3) evti]).

(** For a destination of a bucket, the comparison with the source
    answered that the files are equal and the clone returned. *)
Definition clone_returns `{Kernel} (sfd dfd : Z) : Prop :=
  cmp_files sfd dfd = Ok true ∧ ∃ b, clone_data dfd sfd = Ok b.

(** The exception that a destination ends the loop with: that of
    [cmp_files], the failed assertion when the files differ, or that of
    [clone_data]. *)
Definition clone_raises `{Kernel} (sfd dfd : Z) (e : exn) : Prop :=
  cmp_files sfd dfd = Raise e
  ∨ (cmp_files sfd dfd = Ok false ∧ e = AssertionError)
  ∨ (cmp_files sfd dfd = Ok true ∧ clone_data dfd sfd = Raise e).

(** A size group of two files; the mini-hash of inode 257 is recorded. *)
Definition ex_comm1 : Commonality1 := mkComm1 10485760 2 [(1, 257); (1, 258)].

Definition ex_hashed_session : Session :=
  mkSession (list_to_map [ ((1, 257), mkInode 10485760 false (Some 11) None);
                           ((1, 258), mkInode 10485760 true None None) ])
            [] [] 1024 [].

(** Three opened files with one digest, and the cohort they are of. *)
Definition ex_fd_inodes : gmap Z InodeRef :=
  list_to_map [ (357, (1, 257)); (358, (1, 258)); (359, (1, 259)) ].

Definition ex_comm3 : Commonality3 := mkComm3 10485760 3 ex_cohort.

(** A kernel where the file behind descriptor 358 already shares its
    extents with the source. *)
Definition ex_kernel_shared : Kernel := {|
  lookup_ino_path_one := fun _ ino => inl ino;
  fopenat_rw := fun _ path => inl (100 + path);
  fds_in_write_use := fun _ => [];
  sha1_digest := fun _ => 7;
  fstat := fun fd => (fd - 100, 5);
  tell := fun _ => 10485760;
  cmp_files := fun _ _ => Ok true;
  clone_data := fun dfd _ => Ok (negb (dfd =? 358));
  fopenat := fun _ path => inl (200 + path);
  mini_hash_of_file := fun _ => 11;
  fiemap_hash_of_file := fun _ => 13;
|}.

(** A kernel where the file behind descriptor 359 compares different
    from the source, its digest being the same. *)
Definition ex_kernel_differ : Kernel := {|
  lookup_ino_path_one := fun _ ino => inl ino;
  fopenat_rw := fun _ path => inl (100 + path);
  fds_in_write_use := fun _ => [];
  sha1_digest := fun _ => 7;
  fstat := fun fd => (fd - 100, 5);
  tell := fun _ => 10485760;
  cmp_files := fun _ dfd => Ok (negb (dfd =? 359));
  clone_data := fun _ _ => Ok true;
  fopenat := fun _ path => inl (200 + path);
  mini_hash_of_file := fun _ => 11;
  fiemap_hash_of_file := fun _ => 13;
|}.

(** A kernel where the clone of the file behind descriptor 359 fails
    with EIO. *)
Definition ex_kernel_clone_error : Kernel := {|
  lookup_ino_path_one := fun _ ino => inl ino;
  fopenat_rw := fun _ path => inl (100 + path);
  fds_in_write_use := fun _ => [];
  sha1_digest := fun _ => 7;
  fstat := fun fd => (fd - 100, 5);
  tell := fun _ => 10485760;
  cmp_files := fun _ _ => Ok true;
  clone_data := fun dfd _ => if dfd =? 359 then Raise (IOError 5) else Ok true;
  fopenat := fun _ path => inl (200 + path);
  mini_hash_of_file := fun _ => 11;
  fiemap_hash_of_file := fun _ => 13;
|}.

(** A cohort of the two files of 10 MiB of volume 1, and the session of
    a process whose soft limit on open files is 10. *)
Definition ex_small_cohort : Commonality3 :=
  mkComm3 10485760 2 [(1, 257); (1, 258)].

Definition ex_low_session : Session := mkSession ex_two_volumes [] [] 10 [].

(** ** Forgetting a volume *)

(** [forget_vol(sess, vol)]: the Inode rows of the volume are deleted
    and its [last_tracked_generation] is set to 0. *)
Definition forget_vol (store : Store) (vol : Volume) : Store * Volume :=
  (filter (fun kv : InodeRef * Inode => kv.1.1 ≠ vol_id vol) store,
   set_tracked 0 (last_tracked_size_cutoff vol) vol).


(** The rows that a run of the generator yields, in order. *)
Definition yields (evs : list GenEvent) : list Commonality1 :=
  omap (fun ev => match ev with
                  | Yield el => Some el
                  | ClearUpdates _ _ => None
                  end) evs.


(** Mappings where the inodes of a size group all have the same
    hashes. *)
Definition ex_mappings : Mappings := {|
  comm2_of := fun _ c1 =>
    [mkComm2 (c1_size c1) (c1_inode_count c1) (c1_inodes c1)];
  comm3_of := fun _ c2 =>
    [mkComm3 (c2_size c2) (c2_inode_count c2) (c2_inodes c2)];
|}.


(** ** What the deduper keeps of a session *)

(** A call other than [setrlimit]. *)
Definition not_setrlimit (c : Call) : Prop :=
  match c with
  | CallSetrlimit _ _ => False
  | _ => True
  end.

(** The soft limit is as it was, and the calls made since are not
    calls of [setrlimit]. *)
Definition limit_same (st st' : Session) : Prop :=
  ofile_soft st' = ofile_soft st
  ∧ ∃ later, calls st' = calls st ++ later ∧ Forall not_setrlimit later.

(** Every row of [st'] was a row of [st], with the same size and the
    same [has_updates]. *)
Definition rows_kept (st st' : Session) : Prop :=
  ∀ key row', inodes st' !! key = Some row' →
    ∃ row, inodes st !! key = Some row
           ∧ size row' = size row ∧ has_updates row' = has_updates row.

(** The soft limit has not decreased, and is not above the hard limit
    unless it was. *)
Definition limit_kept (ofile_hard : Z) (st st' : Session) : Prop :=
  ofile_soft st <= ofile_soft st'
  ∧ (ofile_soft st <= ofile_hard → ofile_soft st' <= ofile_hard).

Definition kept (ofile_hard : Z) (st st' : Session) : Prop :=
  rows_kept st st' ∧ limit_kept ofile_hard st st'.


(** A kernel where the file of inode 258 is unlinked after its path was
    resolved: it cannot be opened, even for reading. *)
Definition ex_kernel_unreadable : Kernel := {|
  lookup_ino_path_one := fun _ ino => inl ino;
  fopenat_rw := fun _ path => if path =? 258 then inr ENOENT else inl (100 + path);
  fds_in_write_use := fun _ => [];
  sha1_digest := fun _ => 7;
  fstat := fun fd => (fd - 100, 5);
  tell := fun _ => 10485760;
  cmp_files := fun _ _ => Ok true;
  clone_data := fun _ _ => Ok true;
  fopenat := fun _ path => if path =? 258 then inr ENOENT else inl (200 + path);
  mini_hash_of_file := fun _ => 11;
  fiemap_hash_of_file := fun _ => 13;
|}.


(** * Properties *)

(** ** The scanner *)

Section ScannerFacts.
Context `{Kernel}.

Lemma filtered_out_spec (vol : Volume) (it : SearchItem) :
  0 <= size_cutoff vol →
  filtered_out vol (min_generation vol) it = true ↔ skipped_by_policy vol it.
Proof.
  intros Hc. unfold filtered_out, skipped_by_policy, generation_filtered,
    covered_last_time, min_generation.
  destruct (S_ISREG (item_mode it)) eqn:Hreg;
    destruct (last_tracked_size_cutoff vol) as [s_prev|]; simpl;
    repeat match goal with
      | |- context [decide ?P] => destruct (decide P)
      | |- context [?a <? ?b] => destruct (Z.ltb_spec a b)
      | |- context [?a <=? ?b] => destruct (Z.leb_spec a b)
      | |- context [?a =? ?b] => destruct (Z.eqb_spec a b)
      | H : context [?a <=? ?b] |- _ => destruct (Z.leb_spec a b)
      end; simpl;
    (split; [intros Hb; try discriminate Hb | intros [Hp|[Hp|Hp]]; try done]);
    try lia;
    first [ by right; right | right; left; lia | left; lia ].
Qed.

(** The loop over the buffers only returns or raises; the volume row
    is not an argument it can change. *)
Lemma track_updated_files_inv (top : Z)
    (replies : list (result (list SearchItem))) (store store' : Store)
    (vol vol' : Volume) :
  track_updated_files top replies store vol = Ok (store', vol') →
  (top < min_generation vol ∧ store' = store ∧ vol' = vol)
  ∨ (min_generation vol <= top
     ∧ scan_replies vol (min_generation vol) replies store = Ok store'
     ∧ vol' = set_tracked top (Some (size_cutoff vol)) vol).
Proof.
  unfold track_updated_files.
  destruct (Z.gtb_spec (min_generation vol) top) as [Hgt|Hle].
  - intros [= <- <-]. left. repeat split; lia.
  - destruct (scan_replies vol (min_generation vol) replies store) as [s|e] eqn:Hs;
      simpl; [|done].
    intros [= <- <-]. right. by repeat split.
Qed.

Lemma min_generation_le (vol : Volume) :
  0 <= last_tracked_generation vol →
  0 <= min_generation vol <= last_tracked_generation vol + 1.
Proof.
  unfold min_generation. intros.
  destruct (last_tracked_size_cutoff vol); [case_match|]; lia.
Qed.
End ScannerFacts.

(** C4. With [S_prev = vol.last_tracked_size_cutoff], [G_prev =
    vol.last_tracked_generation] and [S_cur = vol.size_cutoff], the
    watermark [min_generation] of a scan is [G_prev + 1] when [S_prev]
    is not null and [S_prev <= S_cur], and 0 otherwise; and a scan whose
    watermark exceeds the root generation of the volume returns with
    every Inode row and every attribute of the volume unchanged. *)
Theorem scan_watermark `{Kernel} (top : Z)
    (replies : list (result (list SearchItem))) (store : Store) (vol : Volume) :
  (∀ s_prev, last_tracked_size_cutoff vol = Some s_prev →
             s_prev <= size_cutoff vol →
             min_generation vol = last_tracked_generation vol + 1)
  ∧ (¬ (∃ s_prev, last_tracked_size_cutoff vol = Some s_prev
                  ∧ s_prev <= size_cutoff vol) →
     min_generation vol = 0)
  ∧ (top < min_generation vol →
     track_updated_files top replies store vol = Ok (store, vol)).
Proof.
  split; [|split].
  - intros s_prev Hs Hle. unfold min_generation. rewrite Hs.
    by destruct (Z.leb_spec s_prev (size_cutoff vol)); [|lia].
  - intros Hno. unfold min_generation.
    destruct (last_tracked_size_cutoff vol) as [s_prev|]; [|done].
    destruct (Z.leb_spec s_prev (size_cutoff vol)); [|done].
    destruct Hno. by exists s_prev.
  - intros Hlt. unfold track_updated_files.
    by destruct (Z.gtb_spec (min_generation vol) top); [|lia].
Qed.

Lemma scan_watermark_witness :
  min_generation ex_vol = 42
  ∧ min_generation (set_size_cutoff 4194304 ex_vol) = 0
  ∧ track_updated_files (H := ex_kernel) 41 [Ok [ex_item]] ex_store ex_vol
    = Ok (ex_store, ex_vol).
Proof.
  destruct (scan_watermark (H := ex_kernel) 41 [Ok [ex_item]] ex_store ex_vol)
    as (Hprev & _ & Hskip).
  destruct (scan_watermark (H := ex_kernel) 41 [Ok [ex_item]] ex_store
              (set_size_cutoff 4194304 ex_vol)) as (_ & Hfull & _).
  split; [|split].
  - apply (Hprev 8388608); [reflexivity | simpl; lia].
  - apply Hfull. intros (s & Hs & Hle). simpl in Hs, Hle.
    injection Hs as <-. lia.
  - apply Hskip. vm_compute. reflexivity.
Defined.

(** A record of type INODE_ITEM that passes the three filters, while
    the path of its inode cannot be resolved: the row that was there is
    deleted, not updated. *)
Lemma record_policy_counterexample :
  ¬ record_policy_as_stated (H := ex_kernel_gone) ex_vol ex_store ex_item.
Proof.
  intros [_ Hups].
  destruct Hups as (row & Hrow & _).
  - intros [Hsz | [Hgen | Hreg]].
    + vm_compute in Hsz. discriminate.
    + unfold generation_filtered in Hgen. simpl in Hgen.
      destruct (decide (8388608 <= 10485760)); [|lia].
      apply Hgen. lia.
    + vm_compute in Hreg. discriminate.
  - vm_compute in Hrow. discriminate.
Qed.

(** C5, amended.  On a volume whose size cutoff is not negative, a
    record of type INODE_ITEM is skipped, with no Inode row created or
    changed, exactly when its size is below [vol.size_cutoff]; or, when
    [S_prev] is not null and [size >= S_prev], its generation is not
    above [G_prev]; or, otherwise, its generation is below
    [min_generation]; or its mode is not that of a regular file.  A
    record that passes these filters is stored with [has_updates = true]
    and the size of the record when the path of its inode resolves;
    when the lookup fails, no row is created and the row that was there
    is deleted. *)
Theorem track_item_policy `{Kernel} (vol : Volume) (store : Store)
    (it : SearchItem) :
  sh_type it = BTRFS_INODE_ITEM_KEY →
  0 <= size_cutoff vol →
  let key := (vol_id vol, sh_objectid it) in
  let store' := track_item vol (min_generation vol) store it in
  (skipped_by_policy vol it → store' = store)
  ∧ (¬ skipped_by_policy vol it →
     match lookup_ino_path_one (vol_fd vol) (sh_objectid it) with
     | inl _ => store' = <[key := upserted store key it]> store
     | inr _ => store' = delete key store
     end)
  ∧ has_updates (upserted store key it) = true
  ∧ size (upserted store key it) = item_size it.
Proof.
  intros Hty Hc key store'. subst store'. unfold track_item.
  rewrite Hty, Z.eqb_refl.
  pose proof (filtered_out_spec vol it Hc) as Hf.
  split; [|split; [|done]].
  - intros Hp. apply Hf in Hp. by rewrite Hp.
  - intros Hp.
    destruct (filtered_out vol (min_generation vol) it); [by destruct Hp; apply Hf|].
    fold key. unfold upserted, get_or_create.
    destruct (store !! key) as [row|] eqn:Hrow; simpl;
      destruct (lookup_ino_path_one (vol_fd vol) (sh_objectid it)); try done.
    symmetry. by apply delete_id.
Qed.

Lemma track_item_policy_witness :
  track_item (H := ex_kernel) ex_vol (min_generation ex_vol) ex_store ex_item
  = <[(1, 257) := mkInode 10485760 true (Some 11) None]> ex_store
  ∧ track_item (H := ex_kernel_gone) ex_vol (min_generation ex_vol) ex_store ex_item
    = delete (1, 257) ex_store.
Proof.
  assert (Hpass : ¬ skipped_by_policy ex_vol ex_item).
  { intros [Hsz | [Hgen | Hreg]].
    - vm_compute in Hsz. discriminate.
    - unfold generation_filtered in Hgen. simpl in Hgen.
      destruct (decide (8388608 <= 10485760)); [|lia]. apply Hgen. lia.
    - vm_compute in Hreg. discriminate. }
  split.
  - destruct (track_item_policy (H := ex_kernel) ex_vol ex_store ex_item)
      as (_ & Hups & _); [reflexivity | simpl; lia |].
    apply (Hups Hpass).
  - destruct (track_item_policy (H := ex_kernel_gone) ex_vol ex_store ex_item)
      as (_ & Hups & _); [reflexivity | simpl; lia |].
    apply (Hups Hpass).
Defined.

Section ScanHistory.
Context `{Kernel}.

Lemma get_vol_size_cutoff_generation (c : option Z) (vol : Volume) :
  last_tracked_generation (get_vol_size_cutoff c vol)
  = last_tracked_generation vol.
Proof. by destruct c. Qed.

(** A scan that returns moves the watermark to the root generation
    or leaves it, and never moves it back when the root generation is
    not below it. *)
Lemma track_updated_files_generation (top : Z)
    (replies : list (result (list SearchItem)))
    (store store' : Store) (vol vol' : Volume) :
  track_updated_files top replies store vol = Ok (store', vol') →
  last_tracked_generation vol <= top →
  last_tracked_generation vol' = top
  ∨ (last_tracked_generation vol' = last_tracked_generation vol).
Proof.
  intros Hrun Hle.
  destruct (track_updated_files_inv _ _ _ _ _ _ Hrun)
    as [(_ & _ & ->) | (_ & _ & ->)]; [by right | by left].
Qed.

Lemma Sorted_le_skip (a b : Z) (l : list Z) :
  Sorted Z.le (a :: b :: l) → Sorted Z.le (a :: l).
Proof.
  intros Hs. apply Sorted_inv in Hs as [Hs Hab].
  apply HdRel_inv in Hab.
  apply Sorted_inv in Hs as [Hs Hb].
  constructor; [done|].
  destruct l as [|c l]; constructor.
  apply HdRel_inv in Hb. lia.
Qed.

Lemma scan_history_sorted (runs : list ScanRun) (store : Store) (vol : Volume) :
  Sorted Z.le (last_tracked_generation vol :: map run_top_generation runs) →
  Sorted Z.le (last_tracked_generation vol
               :: map last_tracked_generation (scan_history runs store vol)).
Proof.
  revert store vol. induction runs as [|r runs IH]; intros store vol Hs.
  { simpl. by repeat constructor. }
  simpl in *.
  pose proof (Sorted_le_skip _ _ _ Hs) as Hskip.
  apply Sorted_inv in Hs as [Hs Hhd]. apply HdRel_inv in Hhd.
  destruct (track_updated_files _ _ _ _) as [[store' vol']|e] eqn:Hrun;
    [|by apply IH].
  simpl.
  destruct (track_updated_files_generation _ _ _ _ _ _ Hrun) as [Hg|Hg].
  { by rewrite get_vol_size_cutoff_generation. }
  - constructor; [|constructor; lia].
    apply IH. by rewrite Hg.
  - rewrite get_vol_size_cutoff_generation in Hg.
    constructor; [|constructor; lia].
    apply IH. by rewrite Hg.
Qed.
End ScanHistory.

(** C9. A scan that runs to its end sets [last_tracked_generation] to
    the root generation read at its start and
    [last_tracked_size_cutoff] to the current [size_cutoff]; a scan that
    returns, skipped or not, leaves [last_tracked_generation] at that
    root generation (an unsigned number) when the root generation was
    not below the watermark.  So over any series of scans whose root generations never
    decrease, starting at or above the recorded watermark,
    [last_tracked_generation] never decreases from one scan that returns
    to the next, whatever size cutoff each scan is given. *)
Theorem last_tracked_generation_monotone `{Kernel} :
  (∀ (top : Z) (replies : list (result (list SearchItem)))
     (store store' : Store) (vol vol' : Volume),
     track_updated_files top replies store vol = Ok (store', vol') →
     (min_generation vol <= top →
      last_tracked_generation vol' = top
      ∧ last_tracked_size_cutoff vol' = Some (size_cutoff vol))
     ∧ (0 <= top → last_tracked_generation vol <= top →
        last_tracked_generation vol' = top))
  ∧ (∀ (runs : list ScanRun) (store : Store) (vol : Volume),
     Sorted Z.le (last_tracked_generation vol :: map run_top_generation runs) →
     Sorted Z.le (last_tracked_generation vol
                  :: map last_tracked_generation (scan_history runs store vol))).
Proof.
  split; [|apply scan_history_sorted].
  intros top replies store store' vol vol' Hrun.
  destruct (track_updated_files_inv _ _ _ _ _ _ Hrun)
    as [(Hlt & _ & ->) | (Hle & _ & ->)].
  - split; [intros; lia|]. intros Htop Hg.
    unfold min_generation in Hlt.
    destruct (last_tracked_size_cutoff vol); [case_match|]; lia.
  - by split.
Qed.

Lemma last_tracked_generation_monotone_witness :
  (∃ store' vol',
     track_updated_files (H := ex_kernel) 60 [Ok [ex_item]; Ok []] ex_store ex_vol
     = Ok (store', vol')
     ∧ last_tracked_generation vol' = 60
     ∧ last_tracked_size_cutoff vol' = Some 8388608)
  ∧ Sorted Z.le (41 :: map last_tracked_generation
                         (scan_history (H := ex_kernel) ex_runs ex_store ex_vol)).
Proof.
  destruct (last_tracked_generation_monotone (H := ex_kernel)) as [Hset Hmono].
  split.
  - destruct (track_updated_files (H := ex_kernel) 60 [Ok [ex_item]; Ok []]
                ex_store ex_vol) as [[store' vol']|e] eqn:Hrun;
      [|vm_compute in Hrun; discriminate].
    exists store', vol'. split; [reflexivity|].
    apply (Hset _ _ _ _ _ _ Hrun). vm_compute. discriminate.
  - apply (Hmono ex_runs ex_store ex_vol). simpl.
    repeat constructor; lia.
Defined.

(** ** The grouper *)

Section OrderBy.
Context {A : Type} (attr : A → Z).

Lemma elem_of_insert_desc (x y : A) (l : list A) :
  y ∈ insert_desc attr x l ↔ y = x ∨ y ∈ l.
Proof.
  induction l as [|z l IH]; simpl.
  - rewrite list_elem_of_singleton.
    split; [auto | intros [?|Hn]; [done | by apply elem_of_nil in Hn]].
  - destruct (attr z <? attr x); rewrite !elem_of_cons; [done|].
    rewrite IH. tauto.
Qed.

Lemma elem_of_order_by_desc (y : A) (l : list A) :
  y ∈ order_by_desc attr l ↔ y ∈ l.
Proof.
  induction l as [|x l IH]; simpl; [done|].
  rewrite elem_of_insert_desc, elem_of_cons, IH. tauto.
Qed.

Lemma insert_desc_sorted (x : A) (l : list A) :
  StronglySorted (fun a b => attr b <= attr a) l →
  StronglySorted (fun a b => attr b <= attr a) (insert_desc attr x l).
Proof.
  induction 1 as [|z l Hs IH Hall]; simpl.
  - by repeat constructor.
  - destruct (Z.ltb_spec (attr z) (attr x)).
    + constructor; [by constructor|].
      constructor; [lia|].
      eapply Forall_impl; [exact Hall|]. simpl. intros. lia.
    + constructor; [done|].
      apply Forall_forall. intros y Hy.
      apply elem_of_insert_desc in Hy as [->|Hy]; [lia|].
      by eapply Forall_forall in Hall.
Qed.

Lemma order_by_desc_sorted (l : list A) :
  StronglySorted (fun a b => attr b <= attr a) (order_by_desc attr l).
Proof.
  induction l; simpl; [constructor | by apply insert_desc_sorted].
Qed.

(** [first()] of an ordered query: a row of largest [attr]. *)
Lemma head_order_by_desc (l : list A) (h : A) :
  head (order_by_desc attr l) = Some h →
  h ∈ l ∧ ∀ y, y ∈ l → attr y <= attr h.
Proof.
  intros Hh. pose proof (order_by_desc_sorted l) as Hs.
  destruct (order_by_desc attr l) as [|h' s] eqn:Hl; [done|].
  injection Hh as ->.
  split.
  - apply elem_of_order_by_desc. rewrite Hl. by left.
  - intros y Hy. apply elem_of_order_by_desc in Hy. rewrite Hl in Hy.
    apply StronglySorted_inv in Hs as [_ Hall].
    apply elem_of_cons in Hy as [->|Hy]; [lia|].
    by eapply Forall_forall in Hall.
Qed.

Lemma order_by_desc_nil (l : list A) :
  order_by_desc attr l = [] → l = [].
Proof.
  destruct l as [|x l]; [done|]. simpl.
  destruct (order_by_desc attr l); simpl; [done|by case_match].
Qed.
End OrderBy.

Lemma sublist_strongly_sorted {A : Type} (R : relation A) (l1 l2 : list A) :
  l1 `sublist_of` l2 → StronglySorted R l2 → StronglySorted R l1.
Proof.
  induction 1 as [|x l1 l2 Hsub IH|x l1 l2 Hsub IH]; intros Hs.
  - constructor.
  - apply StronglySorted_inv in Hs as [Hs Hall].
    constructor; [by apply IH|].
    apply Forall_forall. intros y Hy.
    eapply Forall_forall in Hall; [done|]. by eapply elem_of_sublist.
  - apply StronglySorted_inv in Hs as [Hs _]. by apply IH.
Qed.

Section WindowedQuery.
Variable query : list Commonality1.
Variable per : nat.

(** The page that the loop reads at [window_start]. *)
Let page_at (window_start : Z) : list Commonality1 :=
  take per (filter (fun el => c1_size el <=? window_start)
                   (order_by_desc c1_size query)).

(** The rows at or below a window. *)
Let below (window_start : Z) : list Commonality1 :=
  filter (fun el => c1_size el <=? window_start) query.

Lemma page_at_elem (window_start : Z) (el : Commonality1) :
  el ∈ page_at window_start → el ∈ query ∧ c1_size el <= window_start.
Proof.
  intros Hel. unfold page_at in Hel.
  eapply elem_of_sublist in Hel; [|apply sublist_take].
  apply list_elem_of_filter in Hel as [Hle Hel].
  apply elem_of_order_by_desc in Hel.
  split; [done|]. apply Is_true_true in Hle. lia.
Qed.

Lemma page_at_last (window_start : Z) (el last_el : Commonality1) :
  last (page_at window_start) = Some last_el →
  el ∈ page_at window_start → c1_size last_el <= c1_size el.
Proof.
  intros Hlast Hel.
  assert (Hs : StronglySorted (fun a b => c1_size b <= c1_size a)
                 (page_at window_start)).
  { unfold page_at.
    eapply sublist_strongly_sorted; [apply sublist_take|].
    eapply sublist_strongly_sorted; [apply sublist_filter|].
    apply order_by_desc_sorted. }
  apply last_Some in Hlast as [l' Hl']. rewrite Hl' in Hs, Hel.
  apply elem_of_app in Hel as [Hel|Hel].
  - eapply (StronglySorted_app_1_elem_of _ _ _ el last_el) in Hs;
      [done | done | by left].
  - apply list_elem_of_singleton in Hel as ->. lia.
Qed.

(** The rows at or below the next window are fewer: the last row of
    the page is no longer among them. *)
Lemma next_window_smaller (window_start : Z) (last_el : Commonality1) :
  last (page_at window_start) = Some last_el →
  (length (below (c1_size last_el - 1)%Z) < length (below window_start))%nat.
Proof.
  intros Hlast. unfold below.
  apply last_Some_elem_of, page_at_elem in Hlast as [Hin Hle].
  assert (Heq : filter (fun el => c1_size el <=? c1_size last_el - 1) query
                = filter (fun el => c1_size el <=? c1_size last_el - 1)
                    (filter (fun el => c1_size el <=? window_start) query)).
  { rewrite list_filter_filter. apply list_filter_iff. intros x.
    rewrite !Is_true_true, !Z.leb_le. lia. }
  rewrite Heq. apply (length_filter_lt _ _ last_el).
  - apply list_elem_of_filter. split; [|done].
    apply Is_true_true, Z.leb_le. lia.
  - rewrite Is_true_true, Z.leb_le. lia.
Qed.

(** With [attr] the size, as [dedup_tracked] calls it, the loop ends
    within as many turns as there are rows at or below the window,
    plus the turn of the empty page. *)
Lemma windowed_query_run (fuel : nat) (window_start : Z) :
  (length (below window_start) < fuel)%nat →
  ∃ evs, windowed_query fuel window_start query c1_size per = Some evs
         ∧ windows window_start evs.
Proof.
  revert window_start. induction fuel as [|fuel IH]; intros ws Hfuel; [lia|].
  simpl. fold (page_at ws).
  destruct (last (page_at ws)) as [last_el|] eqn:Hlast.
  - destruct (IH (c1_size last_el - 1)) as (rest & Hrest & Hw).
    { pose proof (next_window_smaller ws last_el Hlast). lia. }
    rewrite Hrest. simpl. eexists. split; [done|].
    apply windows_page; [by rewrite Hlast | | done].
    apply Forall_forall. intros el Hel. split.
    + by eapply page_at_last.
    + by apply page_at_elem in Hel as [_ ?].
  - eexists. split; [done|]. constructor.
Qed.

Lemma windows_cover (window_start : Z) (evs : list GenEvent) :
  windows window_start evs →
  ∀ s, (window_start < s → length (filter (fun ev => covers s ev) evs) = 0%nat)
       ∧ (0 <= s <= window_start →
          length (filter (fun ev => covers s ev) evs) = 1%nat).
Proof.
  induction 1 as [ws | ws we page rest Hlast Hpage Hw IH]; intros s.
  - rewrite filter_cons, filter_nil. simpl.
    destruct (Z.leb_spec 0 s), (Z.leb_spec s ws); simpl; split; intros; try lia; done.
  - assert (Hy : filter (fun ev => covers s ev) (map Yield page) = []).
    { clear. induction page as [|el page IH]; [done|].
      simpl. rewrite filter_cons_False; [done | simpl; tauto]. }
    assert (Hle : we <= ws).
    { destruct (last page) as [el|] eqn:Hl; [|done].
      injection Hlast as <-.
      apply last_Some_elem_of in Hl.
      eapply Forall_forall in Hpage; [|done]. lia. }
    rewrite filter_app, Hy, filter_cons. simpl.
    destruct (IH s) as [IH0 IH1].
    destruct (Z.leb_spec we s), (Z.leb_spec s ws); simpl;
      split; intros; try lia;
      first [ rewrite IH0 by lia; done | rewrite IH1 by lia; done ].
Qed.
End WindowedQuery.

(** C10. With [attr] the size of the rows, as [dedup_tracked] calls it,
    a run of [windowed_query] that starts at [W] on the rows of a finite
    query ends, within one turn of the loop per row and one more.  What
    it does is a chain of windows: each page of rows with sizes in
    [[window_end, window_start]] is followed by the call
    [clear_updates(window_start, window_end)], the next window starts at
    [window_end - 1], and the last call, on an empty page, is
    [clear_updates(window_start, 0)].  Every size in [[0, W]] is in the
    range of exactly one of these calls. *)
Theorem windowed_query_windows (fuel : nat) (W : Z)
    (query : list Commonality1) (per : nat) :
  (length query < fuel)%nat →
  ∃ evs, windowed_query fuel W query c1_size per = Some evs
         ∧ windows W evs
         ∧ ∀ s, 0 <= s <= W →
                length (filter (fun ev => covers s ev) evs) = 1%nat.
Proof.
  intros Hfuel.
  destruct (windowed_query_run query per fuel W) as (evs & Hrun & Hw).
  { pose proof (length_filter (fun el => c1_size el <=? W) query). lia. }
  exists evs. split; [done|]. split; [done|].
  intros s Hs. by apply (windows_cover W evs Hw s).
Qed.

Lemma windowed_query_windows_witness :
  ∃ evs, windowed_query 4 40 ex_query c1_size 2 = Some evs
         ∧ windows 40 evs
         ∧ length (filter (fun ev => covers 15 ev) evs) = 1%nat.
Proof.
  destruct (windowed_query_windows 4 40 ex_query 2) as (evs & Hrun & Hw & Hc).
  { simpl. lia. }
  exists evs. split; [done|]. split; [done|]. apply Hc. lia.
Defined.

(** Assigning the same value through every reference of a list. *)
Lemma lookup_foldl_alter (f : Inode → Inode) (l : list InodeRef)
    (m : Store) (key : InodeRef) :
  (∀ row, f (f row) = f row) →
  foldl (fun m inode => alter f inode m) m l !! key
  = (if bool_decide (key ∈ l) then f else id) <$> m !! key.
Proof.
  intros Hf. revert m. induction l as [|a l IH]; intros m; simpl.
  - by destruct (m !! key).
  - rewrite IH, lookup_alter.
    destruct (decide (a = key)) as [->|Hne].
    + rewrite (bool_decide_eq_true_2 (key ∈ key :: l)); [|by left].
      destruct (m !! key); simpl; [|by case_bool_decide].
      case_bool_decide; simpl; by rewrite ?Hf.
    + destruct (decide (key ∈ l)) as [Hin|Hin].
      * rewrite !bool_decide_eq_true_2; [done | by right | done].
      * rewrite !bool_decide_eq_false_2; [done | | done].
        intros [?|?]%elem_of_cons; congruence.
Qed.

(** What a call of [clear_updates] that returns has done: the UPDATE
    tested the sizes on one side only, the side that the truth value of
    the left clause chose; then the rows of [skipped] were marked and
    the list emptied. *)
Lemma clear_updates_lookup `{Sqlalchemy} (vol_ids : list Z)
    (window_start window_end : Z) (st st' : Session) :
  clear_updates vol_ids window_start window_end st = Ok st' →
  ∃ b : bool,
    clause_bool window_start = Ok b
    ∧ (∀ key,
         inodes st' !! key
         = (fun row =>
              if bool_decide (key ∈ skipped st) then set_has_updates true row
              else if bool_decide (key.1 ∈ vol_ids)
                      && (if b then window_end <=? size row
                          else size row <=? window_start)
                   then set_has_updates false row else row)
           <$> inodes st !! key)
    ∧ skipped st' = []
    ∧ dedup_events st' = dedup_events st
    ∧ ofile_soft st' = ofile_soft st
    ∧ calls st' = calls st.
Proof.
  unfold clear_updates, size_clause.
  destruct (clause_bool window_start) as [b|e]; [|done].
  simpl. intros [= <-]. exists b. split; [done|]. simpl.
  split; [|done]. intros key.
  rewrite lookup_foldl_alter by done.
  rewrite map_lookup_imap.
  destruct (inodes st !! key) as [row|]; simpl; [|done].
  unfold in_window.
  case_bool_decide; [by destruct (_ && _) | by destruct b].
Qed.

(** Where a clause has no truth value, the call raises before the
    UPDATE: no row is changed and [skipped] is as it was. *)
Lemma clear_updates_raises `{Sqlalchemy} (vol_ids : list Z)
    (window_start window_end : Z) (st : Session) (e : exn) :
  clause_bool window_start = Raise e →
  clear_updates vol_ids window_start window_end st = Raise e.
Proof. intros He. unfold clear_updates, size_clause. by rewrite He. Qed.

(** The second table is what the first call makes of the first one
    when inode 2 is in [skipped] and the truth value is True. *)
Lemma ex_last_window_reached `{Sqlalchemy} :
  clause_bool 500 = Ok true →
  clear_updates [1] 500 50 (with_skipped (fun _ => [(1, 2)]) ex_first_window)
  = Ok ex_last_window.
Proof.
  intros Hb. unfold clear_updates, size_clause. rewrite Hb. simpl.
  by vm_compute.
Qed.

(** C1.  The calls [clear_updates(500, 50)] and [clear_updates(49, 0)]
    of a pass over a volume with a file of 5 bytes, two of 50 and one of
    500, whatever SQLAlchemy answers for the truth value of the clause
    [Inode.size <= window_start].  The first call raises when the truth
    value does; when it returns, the two rows of 50 bytes and the row of
    500 are cleared and the row of 5 bytes, below the window, is as the
    truth value says.  The first call does what the claim states only
    when the truth value is True, and the second one, made after an
    inode of the page was skipped, only when it is False: the test on
    the sizes is never the two-sided one. *)
Theorem clear_updates_window `{Sqlalchemy} :
  match clear_updates [1] 500 50 ex_first_window with
  | Raise e => clause_bool 500 = Raise e
  | Ok st' =>
      ∃ b : bool,
        clause_bool 500 = Ok b
        ∧ has_updates <$> inodes st' !! (1, 1) = Some b
        ∧ has_updates <$> inodes st' !! (1, 2) = Some false
        ∧ has_updates <$> inodes st' !! (1, 3) = Some false
        ∧ has_updates <$> inodes st' !! (1, 4) = Some false
  end
  ∧ (clear_updates_as_stated [1] 50 500 ex_first_window
     ↔ clause_bool 500 = Ok true)
  ∧ (clear_updates_as_stated [1] 0 49 ex_last_window
     ↔ clause_bool 49 = Ok false).
Proof.
  split; [|split].
  - unfold clear_updates, size_clause.
    destruct (clause_bool 500) as [[|]|e]; simpl; [| |done].
    + exists true. by vm_compute.
    + exists false. by vm_compute.
  - split.
    + intros (st' & Hrun & Hrows).
      apply clear_updates_lookup in Hrun as (b & Hb & Hkeys & _).
      rewrite Hb. destruct b; [done|].
      specialize (Hrows (1, 1) (mkInode 5 true None None) eq_refl).
      rewrite Hkeys in Hrows. vm_compute in Hrows. discriminate.
    + intros Hb. unfold clear_updates_as_stated, clear_updates, size_clause.
      rewrite Hb. simpl. eexists. split; [done|].
      intros key row Hrow. simpl.
      apply elem_of_map_to_list in Hrow.
      remember (map_to_list _) as rows eqn:Hl in Hrow.
      vm_compute in Hl. subst rows.
      repeat (apply elem_of_cons in Hrow as [[= -> ->]|Hrow];
              [by vm_compute|]).
      by apply elem_of_nil in Hrow.
  - split.
    + intros (st' & Hrun & Hrows).
      apply clear_updates_lookup in Hrun as (b & Hb & Hkeys & _).
      rewrite Hb. destruct b; [|done].
      specialize (Hrows (1, 2) (mkInode 50 true None None) eq_refl).
      rewrite Hkeys in Hrows. vm_compute in Hrows. discriminate.
    + intros Hb. unfold clear_updates_as_stated, clear_updates, size_clause.
      rewrite Hb. simpl. eexists. split; [done|].
      intros key row Hrow. simpl.
      apply elem_of_map_to_list in Hrow.
      remember (map_to_list _) as rows eqn:Hl in Hrow.
      vm_compute in Hl. subst rows.
      repeat (apply elem_of_cons in Hrow as [[= -> ->]|Hrow];
              [by vm_compute|]).
      by apply elem_of_nil in Hrow.
Qed.

Lemma comm1_rows_store_nonempty (store : Store) (vol_ids : list Z) :
  comm1_rows store vol_ids ≠ [] → map_to_list store ≠ [].
Proof.
  intros Hne Hnil. apply Hne.
  unfold comm1_rows, filtered_inodes. by rewrite Hnil.
Qed.

Lemma initial_window_start_is_max (store : Store) :
  map_to_list store ≠ [] →
  ∃ m, initial_window_start store = Ok m ∧ is_max_size (map_to_list store) m.
Proof.
  intros Hne. unfold initial_window_start.
  destruct (head _) as [kv|] eqn:Hhead.
  - apply head_order_by_desc in Hhead as [Hin Hmax].
    exists (size kv.2). split; [done|]. split.
    + apply Exists_exists. by exists kv.
    + apply Forall_forall. intros kv' Hin'. by apply Hmax.
  - destruct (order_by_desc _ (map_to_list store)) eqn:Hl; [|done].
    by apply order_by_desc_nil in Hl.
Qed.

(** The rows of volume 1 have 10 MiB at most, and the first window
    starts at the 100 MiB of a row of volume 2. *)
Lemma window_start_counterexample :
  ¬ window_start_as_stated ex_two_volumes [1].
Proof.
  intros Hc. destruct Hc as (m & Hm & Hex & _).
  - vm_compute. discriminate.
  - assert (m = 104857600) as -> by (vm_compute in Hm; congruence).
    apply Exists_exists in Hex as (kv & Hin & Hsz).
    assert (Hrows : filtered_inodes ex_two_volumes [1]
                    = [ ((1, 257), mkInode 10485760 true None None);
                        ((1, 258), mkInode 10485760 true None None) ])
      by (vm_compute; reflexivity).
    rewrite Hrows in Hin.
    apply elem_of_cons in Hin as [->|Hin]; [simpl in Hsz; lia|].
    apply list_elem_of_singleton in Hin as ->. simpl in Hsz. lia.
Qed.

(** C2, amended.  When the Commonality1 sequence is not empty, the
    first window of the traversal starts at the largest [Inode.size] of
    the whole [inode] table, whatever the volume of the row.  That is at
    or above the size of every inode of the volume set, so that each of
    them, with or without a peer of its size, is in the range of exactly
    one call of [clear_updates]. *)
Theorem initial_window_start_max (store : Store) (vol_ids : list Z) :
  comm1_rows store vol_ids ≠ [] →
  ∃ m, initial_window_start store = Ok m
       ∧ is_max_size (map_to_list store) m
       ∧ Forall (fun kv => size kv.2 <= m) (filtered_inodes store vol_ids)
       ∧ ∀ fuel, (length (comm1_rows store vol_ids) < fuel)%nat →
           ∃ evs, windowed_query fuel m (comm1_rows store vol_ids)
                    c1_size WINDOW_SIZE = Some evs
                  ∧ ∀ kv, kv ∈ filtered_inodes store vol_ids →
                          0 <= size kv.2 →
                          length (filter (fun ev => covers (size kv.2) ev) evs)
                          = 1%nat.
Proof.
  intros Hne.
  destruct (initial_window_start_is_max store) as (m & Hm & Hmax).
  { by apply comm1_rows_store_nonempty in Hne. }
  assert (Hvol : Forall (fun kv => size kv.2 <= m)
                   (filtered_inodes store vol_ids)).
  { destruct Hmax as [_ Hall]. apply Forall_forall. intros kv Hin.
    apply list_elem_of_filter in Hin as [_ Hin].
    by eapply Forall_forall in Hall. }
  exists m. repeat split; try done; try apply Hmax.
  intros fuel Hfuel.
  destruct (windowed_query_run (comm1_rows store vol_ids) WINDOW_SIZE fuel m)
    as (evs & Hrun & Hw).
  { pose proof (length_filter (fun el => c1_size el <=? m)
                  (comm1_rows store vol_ids)). lia. }
  exists evs. split; [done|]. intros kv Hin Hpos.
  apply (windows_cover m evs Hw (size kv.2)).
  eapply Forall_forall in Hvol; [|done]. lia.
Qed.

Lemma initial_window_start_max_witness :
  ∃ m, initial_window_start ex_two_volumes = Ok m
       ∧ is_max_size (map_to_list ex_two_volumes) m
       ∧ Forall (fun kv => size kv.2 <= m) (filtered_inodes ex_two_volumes [1]).
Proof.
  destruct (initial_window_start_max ex_two_volumes [1])
    as (m & Hm & Hmax & Hvol & _).
  { vm_compute. discriminate. }
  by exists m.
Defined.

(** ** The deduper *)

Lemma result_bind_ok {A B : Type} (f : A → result B) (a : A) :
  Ok a ≫= f = f a.
Proof. done. Qed.

Lemma for_each_cons {A S : Type} (body : S → A → result S) (x : A)
    (l : list A) (st : S) :
  for_each body (x :: l) st = body st x ≫= for_each body l.
Proof. done. Qed.

Lemma for_each_app {A S : Type} (body : S → A → result S) (l1 l2 : list A)
    (st : S) :
  for_each body (l1 ++ l2) st = for_each body l1 st ≫= for_each body l2.
Proof.
  revert st. induction l1 as [|x l1 IH]; intros st; [done|].
  rewrite <- app_comm_cons, !for_each_cons.
  destruct (body st x) as [st'|e]; simpl; [apply IH | done].
Qed.

Lemma for_each_rel {A S : Type} (R : S → S → Prop) (body : S → A → result S)
    (l : list A) (st st' : S) :
  (∀ s, R s s) →
  (∀ a b c, R a b → R b c → R a c) →
  (∀ s x s', body s x = Ok s' → R s s') →
  for_each body l st = Ok st' → R st st'.
Proof.
  intros Hrefl Htrans Hbody. revert st.
  induction l as [|x l IH]; intros st Hrun.
  { injection Hrun as <-. apply Hrefl. }
  rewrite for_each_cons in Hrun.
  destruct (body st x) as [st1|e] eqn:Hstep; [|done].
  rewrite result_bind_ok in Hrun.
  eapply Htrans; [by eapply Hbody | by apply IH].
Qed.

Section OpenPhase.
Context `{Kernel} (volume_of : Z → Volume).

Lemma open_step_outcome (st : Session) (op : Opened) (inode : InodeRef) :
  open_step volume_of (st, op) inode
  = match open_outcome volume_of inode with
    | OpenDropped => Ok (with_inodes (delete inode) st, op)
    | OpenSkipped => Ok (skip inode (add_call (CallOpenRW inode) st), op)
    | OpenFile fd =>
        Ok (add_call (CallOpenRW inode) st,
            mkOpened (files op ++ [fd]) (<[fd := inode]> (fd_inodes op)))
    | OpenFatal e => Raise (IOError e)
    end.
Proof.
  unfold open_step, open_outcome.
  destruct (lookup_ino_path_one _ _) as [path|e].
  - destruct (fopenat_rw _ _) as [fd|e]; [done|].
    destruct (decide (e = ENOENT ∨ e = ETXTBSY ∨ e = EACCES)) as [Hd|Hd].
    + destruct (Z.eqb_spec e ETXTBSY); [done|].
      destruct (Z.eqb_spec e EACCES); [done|].
      destruct (Z.eqb_spec e ENOENT); [done|]. tauto.
    + destruct (Z.eqb_spec e ETXTBSY); [tauto|].
      destruct (Z.eqb_spec e EACCES); [tauto|].
      destruct (Z.eqb_spec e ENOENT); [tauto|]. done.
  - destruct (decide (e = ENOENT)), (Z.eqb_spec e ENOENT); done.
Qed.

Lemma open_cohort_ok (cohort : list InodeRef) (st : Session) (op : Opened) :
  Forall (fun i => is_fatal (open_outcome volume_of i) = false) cohort →
  ∃ st' op',
    for_each (open_step volume_of) cohort (st, op) = Ok (st', op')
    ∧ skipped st'
      = skipped st
        ++ filter (fun i => open_outcome volume_of i = OpenSkipped) cohort
    ∧ files op'
      = files op ++ omap (fun i => opened_fd (open_outcome volume_of i)) cohort
    ∧ (∀ key, inodes st' !! key
              = if bool_decide
                     (key ∈ filter (fun i => open_outcome volume_of i
                                             = OpenDropped) cohort)
                then None else inodes st !! key)
    ∧ dedup_events st' = dedup_events st.
Proof.
  revert st op. induction cohort as [|inode cohort IH]; intros st op Hok.
  { exists st, op. simpl. rewrite !app_nil_r. by repeat split. }
  apply Forall_cons in Hok as [Hi Hok].
  rewrite for_each_cons, open_step_outcome.
  rewrite !filter_cons.
  destruct (open_outcome volume_of inode) as [| |fd|e] eqn:Ho; [| | |done];
    simpl; rewrite ?Ho; simpl.
  - destruct (IH (with_inodes (delete inode) st) op Hok)
      as (st' & op' & Hrun & Hsk & Hf & Hin & Hev).
    exists st', op'. split_and!; try done.
    intros key. rewrite Hin. simpl.
    destruct (decide (key = inode)) as [->|Hne].
    + rewrite lookup_delete_eq.
      rewrite (bool_decide_eq_true_2 (inode ∈ inode :: _)); [|by left].
      by case_bool_decide.
    + rewrite lookup_delete_ne by done.
      destruct (decide (key ∈ filter
                  (fun i => open_outcome volume_of i = OpenDropped) cohort)).
      * rewrite !bool_decide_eq_true_2; [done | by right | done].
      * rewrite !bool_decide_eq_false_2; [done | | done].
        intros [?|?]%elem_of_cons; congruence.
  - destruct (IH (skip inode (add_call (CallOpenRW inode) st)) op Hok)
      as (st' & op' & Hrun & Hsk & Hf & Hin & Hev).
    exists st', op'. split_and!; try done.
    rewrite Hsk. simpl. by rewrite <- app_assoc.
  - destruct (IH (add_call (CallOpenRW inode) st)
                (mkOpened (files op ++ [fd]) (<[fd := inode]> (fd_inodes op)))
                Hok)
      as (st' & op' & Hrun & Hsk & Hf & Hin & Hev).
    exists st', op'. split_and!; try done.
    rewrite Hf. simpl. by rewrite <- app_assoc.
Qed.

Lemma open_cohort_fatal (before after : list InodeRef) (inode : InodeRef)
    (e : Z) (st : Session) (op : Opened) :
  Forall (fun i => is_fatal (open_outcome volume_of i) = false) before →
  open_outcome volume_of inode = OpenFatal e →
  for_each (open_step volume_of) (before ++ inode :: after) (st, op)
  = Raise (IOError e).
Proof.
  intros Hok Hfatal. revert st op.
  induction Hok as [|i before Hi Hok IH]; intros st op.
  - by rewrite app_nil_l, for_each_cons, open_step_outcome, Hfatal.
  - rewrite <- app_comm_cons, for_each_cons, open_step_outcome.
    destruct (open_outcome volume_of i); simpl; try apply IH. done.
Qed.
End OpenPhase.

Section Limit.
Context `{Kernel} (volume_of : Z → Volume).

Lemma limit_same_refl (st : Session) : limit_same st st.
Proof. split; [done|]. exists []. by rewrite app_nil_r. Qed.

Lemma limit_same_trans (a b c : Session) :
  limit_same a b → limit_same b c → limit_same a c.
Proof.
  intros (Hs1 & l1 & Hc1 & Hl1) (Hs2 & l2 & Hc2 & Hl2).
  split; [congruence|]. exists (l1 ++ l2).
  split; [by rewrite Hc2, Hc1, app_assoc | by apply Forall_app].
Qed.

Lemma limit_same_calls (st st' : Session) :
  ofile_soft st' = ofile_soft st → calls st' = calls st → limit_same st st'.
Proof.
  intros Hs Hc. split; [done|]. exists []. by rewrite app_nil_r.
Qed.

Lemma limit_same_add_call (c : Call) (st : Session) :
  not_setrlimit c → limit_same st (add_call c st).
Proof. intros Hc. split; [done|]. exists [c]. split; [done|]. by constructor. Qed.

Lemma open_step_limit (acc acc' : Session * Opened) (inode : InodeRef) :
  open_step volume_of acc inode = Ok acc' → limit_same acc.1 acc'.1.
Proof.
  destruct acc as [st op]. rewrite open_step_outcome.
  destruct (open_outcome volume_of inode); intros [= <-]; simpl.
  - by apply limit_same_calls.
  - eapply limit_same_trans;
      [by apply (limit_same_add_call (CallOpenRW inode)) |
       by apply limit_same_calls].
  - by apply (limit_same_add_call (CallOpenRW inode)).
Qed.

Lemma hash_step_limit (comm3 : Commonality3) (in_write_use : list Z)
    (fdi : gmap Z InodeRef) (acc acc' : Session * gmap Z (list Z)) (fd : Z) :
  hash_step volume_of comm3 in_write_use fdi acc fd = Ok acc' →
  limit_same acc.1 acc'.1.
Proof.
  destruct acc as [st by_hash]. unfold hash_step.
  destruct (fdi !! fd) as [inode|]; [|done].
  repeat match goal with
    | |- (if ?b then _ else _) = _ → _ => destruct b
    end;
    intros [= <-]; simpl; by apply limit_same_calls.
Qed.

Lemma clone_loop_limit (sfd : Z) (dfiles : list Z) (st st' : Session)
    (successful successful' : list Z) :
  clone_loop sfd dfiles st successful = Ok (st', successful') →
  limit_same st st'.
Proof.
  revert st successful. induction dfiles as [|dfd dfiles IH];
    intros st successful Hrun; simpl in Hrun.
  { injection Hrun as <- _. apply limit_same_refl. }
  destruct (cmp_files sfd dfd) as [[|]|e]; [|done..].
  simpl in Hrun.
  eapply limit_same_trans;
    [by apply (limit_same_add_call (CallClone dfd sfd))|].
  destruct (clone_data dfd sfd) as [[|]|e]; [| |done]; by eapply IH.
Qed.

Lemma dedup_fileset_limit (comm3 : Commonality3) (fdi : gmap Z InodeRef)
    (st st' : Session) (fileset : list Z) :
  dedup_fileset comm3 fdi st fileset = Ok st' → limit_same st st'.
Proof.
  unfold dedup_fileset.
  destruct (length fileset <? 2)%nat; [intros [= <-]; apply limit_same_refl|].
  destruct fileset as [|sfd dfiles]; [intros [= <-]; apply limit_same_refl|].
  destruct (clone_loop sfd dfiles st []) as [[st1 successful]|e] eqn:Hloop;
    [|done].
  rewrite result_bind_ok. cbn [fst snd].
  apply clone_loop_limit in Hloop.
  destruct successful as [|d successful]; [by intros [= <-]|].
  destruct (inodes_of_files fdi (sfd :: d :: successful)) as [evti|e];
    [|done].
  rewrite result_bind_ok. intros [= <-].
  eapply limit_same_trans; [exact Hloop|]. by apply limit_same_calls.
Qed.

(** Opening, hashing and cloning a cohort leave the soft limit alone. *)
Lemma process_comm3_limit (comm3 : Commonality3) (st st' : Session) :
  process_comm3 volume_of comm3 st = Ok st' → limit_same st st'.
Proof.
  unfold process_comm3.
  destruct (for_each (open_step volume_of) _ _) as [a|e] eqn:Hopen; [|done].
  rewrite result_bind_ok.
  destruct (for_each (hash_step volume_of comm3 _ _) _ _) as [b|e] eqn:Hhash;
    [|done].
  rewrite result_bind_ok. intros Hclone.
  apply (for_each_rel (fun a b => limit_same a.1 b.1)) in Hopen;
    [|intros; apply limit_same_refl | intros ???; apply limit_same_trans
     | intros s x s'; apply open_step_limit].
  apply (for_each_rel (fun a b => limit_same a.1 b.1)) in Hhash;
    [|intros; apply limit_same_refl | intros ???; apply limit_same_trans
     | intros s x s'; apply hash_step_limit].
  apply (for_each_rel limit_same) in Hclone;
    [|apply limit_same_refl | apply limit_same_trans
     | intros s x s'; apply dedup_fileset_limit].
  simpl in Hopen, Hhash.
  eapply limit_same_trans; [exact Hopen|]. by eapply limit_same_trans.
Qed.
End Limit.

(** C6. For a Commonality3 cohort of [count3] inodes and [v] volumes,
    the descriptors required are [2 * count3 + (7 + v)].  With the soft
    limit at or below the hard limit, as [getrlimit] gives them: when
    the requirement is above the soft limit and not above the hard
    limit, [setrlimit] is called with the requirement and the cohort is
    processed from there, and when that returns the soft limit is the
    requirement and [setrlimit] was called that once; when the
    requirement is not above the soft limit the cohort is processed
    with the limit as it is; when it is above the hard limit, the cohort
    is abandoned with no call made (no limit raised, no file opened, no
    clone), no row and no event changed, and the inodes of the cohort
    whose [has_updates] is true are appended to [skipped]. *)
Theorem open_file_budget `{Kernel} (volume_of : Z → Volume)
    (volset : list Volume) (ofile_hard : Z) (comm3 : Commonality3)
    (st : Session) :
  ofile_soft st <= ofile_hard →
  let reserved := ofile_reserved_of volset in
  let req := ofile_req reserved comm3 in
  req = 2 * c3_inode_count comm3 + (7 + Z.of_nat (length volset))
  ∧ (ofile_soft st < req <= ofile_hard →
     dedup_comm3 volume_of reserved ofile_hard comm3 st
     = process_comm3 volume_of comm3
         (set_ofile_soft req (add_call (CallSetrlimit req ofile_hard) st))
     ∧ ∀ st', dedup_comm3 volume_of reserved ofile_hard comm3 st = Ok st' →
         ofile_soft st' = req
         ∧ ∃ later,
             calls st' = calls st ++ CallSetrlimit req ofile_hard :: later
             ∧ Forall not_setrlimit later)
  ∧ (req <= ofile_soft st →
     dedup_comm3 volume_of reserved ofile_hard comm3 st
     = process_comm3 volume_of comm3 st
     ∧ ∀ st', dedup_comm3 volume_of reserved ofile_hard comm3 st = Ok st' →
         ofile_soft st' = ofile_soft st
         ∧ ∃ later, calls st' = calls st ++ later
                    ∧ Forall not_setrlimit later)
  ∧ (ofile_hard < req →
     ∃ st', dedup_comm3 volume_of reserved ofile_hard comm3 st = Ok st'
            ∧ calls st' = calls st
            ∧ inodes st' = inodes st
            ∧ dedup_events st' = dedup_events st
            ∧ ofile_soft st' = ofile_soft st
            ∧ skipped st'
              = skipped st
                ++ filter (fun i => inode_has_updates (inodes st) i = true)
                          (c3_inodes comm3)).
Proof.
  intros Hlim reserved req. split; [done|]. split_and!.
  - intros [Hsoft Hhard].
    assert (Hrun : dedup_comm3 volume_of reserved ofile_hard comm3 st
              = process_comm3 volume_of comm3
                  (set_ofile_soft req
                     (add_call (CallSetrlimit req ofile_hard) st))).
    { unfold dedup_comm3. fold reserved req.
      destruct (Z.gtb_spec req (ofile_soft st)); [|lia].
      by destruct (Z.leb_spec req ofile_hard); [|lia]. }
    split; [done|]. intros st' Hst'. rewrite Hrun in Hst'.
    apply process_comm3_limit in Hst' as (Hs & later & Hc & Hl).
    split; [done|]. exists later. split; [|done].
    rewrite Hc. simpl. by rewrite <- app_assoc.
  - intros Hsoft.
    assert (Hrun : dedup_comm3 volume_of reserved ofile_hard comm3 st
              = process_comm3 volume_of comm3 st).
    { unfold dedup_comm3. fold reserved req.
      by destruct (Z.gtb_spec req (ofile_soft st)); [lia|]. }
    split; [done|]. intros st' Hst'. rewrite Hrun in Hst'.
    by apply process_comm3_limit in Hst'.
  - intros Hhard. unfold dedup_comm3. fold reserved req.
    destruct (Z.gtb_spec req (ofile_soft st)); [|lia].
    destruct (Z.leb_spec req ofile_hard); [lia|].
    eexists. by split_and!.
Qed.

Lemma open_file_budget_witness :
  (∃ st', dedup_comm3 (H := ex_kernel) (fun _ => ex_vol)
            (ofile_reserved_of [ex_vol]) 4096 ex_small_cohort ex_low_session
          = Ok st'
          ∧ ofile_soft st' = 12
          ∧ ∃ later, calls st' = CallSetrlimit 12 4096 :: later
                     ∧ Forall not_setrlimit later)
  ∧ (∃ st', dedup_comm3 (H := ex_kernel) (fun _ => ex_vol)
              (ofile_reserved_of [ex_vol]) 1024 ex_large_cohort ex_session
            = Ok st'
            ∧ calls st' = []
            ∧ ofile_soft st' = 1024
            ∧ skipped st' = [(1, 257); (1, 258)]).
Proof.
  split.
  - destruct (open_file_budget (H := ex_kernel) (fun _ => ex_vol) [ex_vol] 4096
                ex_small_cohort ex_low_session) as (_ & Hraise & _).
    { simpl. lia. }
    destruct Hraise as [_ Hraised].
    { vm_compute. split; [reflexivity | discriminate]. }
    destruct (dedup_comm3 (H := ex_kernel) (fun _ => ex_vol)
                (ofile_reserved_of [ex_vol]) 4096 ex_small_cohort
                ex_low_session) as [st'|e] eqn:Hrun;
      [|vm_compute in Hrun; discriminate].
    exists st'. split; [reflexivity|].
    destruct (Hraised st' eq_refl) as (Hsoft & later & Hcalls & Hlater).
    split; [exact Hsoft|]. exists later. split; [exact Hcalls | exact Hlater].
  - destruct (open_file_budget (H := ex_kernel) (fun _ => ex_vol) [ex_vol] 1024
                ex_large_cohort ex_session) as (_ & _ & _ & Habort).
    { simpl. lia. }
    destruct Habort as (st' & Hrun & Hcalls & _ & _ & Hsoft & Hskipped).
    { vm_compute. reflexivity. }
    exists st'. split; [done|]. split; [done|]. split; [done|].
    rewrite Hskipped. vm_compute. reflexivity.
Defined.

(** C7. In the loop that opens the inodes of a Commonality3 cohort:
    when the path lookup fails with ENOENT the Inode row is deleted and
    the inode is not among the opened files; when the open fails with
    ENOENT, ETXTBSY or EACCES the inode is appended to [skipped]; in
    both cases the loop goes on with the inodes that remain, and the
    rows that are not deleted, those of the skipped inodes among them,
    are as they were, [has_updates] included.  Any other error of the
    path lookup or of the open is raised out of the loop. *)
Theorem open_phase_errors `{Kernel} (volume_of : Z → Volume)
    (cohort : list InodeRef) (st : Session) (op : Opened) :
  (Forall (fun i => is_fatal (open_outcome volume_of i) = false) cohort →
   ∃ st' op',
     for_each (open_step volume_of) cohort (st, op) = Ok (st', op')
     ∧ skipped st'
       = skipped st
         ++ filter (fun i => open_outcome volume_of i = OpenSkipped) cohort
     ∧ files op'
       = files op ++ omap (fun i => opened_fd (open_outcome volume_of i)) cohort
     ∧ (∀ key, inodes st' !! key
               = if bool_decide
                      (key ∈ filter (fun i => open_outcome volume_of i
                                              = OpenDropped) cohort)
                 then None else inodes st !! key))
  ∧ (∀ before inode after e,
       cohort = before ++ inode :: after →
       Forall (fun i => is_fatal (open_outcome volume_of i) = false) before →
       open_outcome volume_of inode = OpenFatal e →
       for_each (open_step volume_of) cohort (st, op) = Raise (IOError e)).
Proof.
  split.
  - intros Hok.
    destruct (open_cohort_ok volume_of cohort st op Hok)
      as (st' & op' & Hrun & Hsk & Hf & Hin & _).
    by exists st', op'.
  - intros before inode after e -> Hok Hfatal.
    by apply open_cohort_fatal.
Qed.

Lemma open_phase_errors_witness :
  ∃ st' op',
    for_each (open_step (H := ex_kernel_busy) (fun _ => ex_vol)) ex_cohort
      (ex_session, mkOpened [] ∅) = Ok (st', op')
    ∧ skipped st' = [(1, 258)]
    ∧ files op' = [357]
    ∧ inodes st' !! (1, 259) = None.
Proof.
  destruct (open_phase_errors (H := ex_kernel_busy) (fun _ => ex_vol) ex_cohort
              ex_session (mkOpened [] ∅)) as [Hok _].
  destruct Hok as (st' & op' & Hrun & Hsk & Hf & Hin).
  { repeat constructor. }
  exists st', op'. split; [done|]. split; [|split].
  - rewrite Hsk. vm_compute. reflexivity.
  - rewrite Hf. vm_compute. reflexivity.
  - rewrite Hin. vm_compute. reflexivity.
Defined.

Section MiniHash.
Context `{Kernel} (volume_of : Z → Volume).

(** What the step does, by the answers of the kernel alone: the
    recorded [mini_hash] of the row is not looked at. *)
Lemma mini_hash_step_inv (st st1 : Session) (inode : InodeRef) :
  mini_hash_step volume_of st inode = Ok st1 →
  (resolves volume_of inode = false
   ∧ st1 = with_inodes (delete inode) st)
  ∨ (resolves volume_of inode = true
     ∧ ∃ h, expected_mini_hash volume_of inode = Some h
            ∧ st1 = add_call (CallMiniHash inode)
                      (with_inodes (alter (set_mini_hash h) inode) st)).
Proof.
  unfold mini_hash_step, resolves, expected_mini_hash, mini_hash_from_file.
  destruct (lookup_ino_path_one _ _) as [path|e].
  - destruct (fopenat _ _) as [rfd|e]; [|done].
    intros [= <-]. right. split; [done|]. by eexists.
  - destruct (negb (e =? ENOENT)); [done|].
    intros [= <-]. by left.
Qed.

(** The calls of the loop: one for each member whose path resolves. *)
Lemma mini_hash_loop (members : list InodeRef) (st st' : Session) :
  for_each (mini_hash_step volume_of) members st = Ok st' →
  calls st'
  = calls st
    ++ map CallMiniHash (filter (fun i => resolves volume_of i = true) members).
Proof.
  revert st. induction members as [|inode members IH]; intros st Hrun.
  { injection Hrun as <-. simpl. by rewrite app_nil_r. }
  rewrite for_each_cons in Hrun.
  destruct (mini_hash_step volume_of st inode) as [st1|e] eqn:Hstep; [|done].
  simpl in Hrun. rewrite (IH st1 Hrun), filter_cons.
  destruct (mini_hash_step_inv _ _ _ Hstep)
    as [(Hr & ->) | (Hr & h & Hh & ->)]; rewrite Hr; simpl.
  - done.
  - by rewrite <- app_assoc.
Qed.

(** A loop that returns has opened the file of every member whose path
    resolves. *)
Lemma mini_hash_loop_opened (members : list InodeRef) (st st' : Session)
    (key : InodeRef) :
  for_each (mini_hash_step volume_of) members st = Ok st' →
  key ∈ members → resolves volume_of key = true →
  ∃ h, expected_mini_hash volume_of key = Some h.
Proof.
  revert st. induction members as [|inode members IH]; intros st Hrun Hin Hr.
  { by apply elem_of_nil in Hin. }
  rewrite for_each_cons in Hrun.
  destruct (mini_hash_step volume_of st inode) as [st1|e] eqn:Hstep; [|done].
  simpl in Hrun.
  apply elem_of_cons in Hin as [->|Hin]; [|by eapply IH].
  destruct (mini_hash_step_inv _ _ _ Hstep)
    as [(Hr' & _) | (_ & h & Hh & _)]; [congruence | by exists h].
Qed.

(** The row of an inode whose path resolves is never deleted by the
    loop, and carries the hash of the file once the loop is through
    with the inode; nothing else of the row changes. *)
Lemma mini_hash_loop_stored (members : list InodeRef) (st st' : Session)
    (key : InodeRef) (h : Z) :
  for_each (mini_hash_step volume_of) members st = Ok st' →
  resolves volume_of key = true →
  expected_mini_hash volume_of key = Some h →
  inodes st' !! key
  = (if bool_decide (key ∈ members) then set_mini_hash h else id)
    <$> inodes st !! key.
Proof.
  intros Hrun Hr Hh. revert st Hrun.
  induction members as [|inode members IH]; intros st Hrun.
  { injection Hrun as <-. by destruct (inodes st !! key). }
  rewrite for_each_cons in Hrun.
  destruct (mini_hash_step volume_of st inode) as [st1|e] eqn:Hstep; [|done].
  simpl in Hrun. rewrite (IH st1 Hrun).
  destruct (mini_hash_step_inv _ _ _ Hstep)
    as [(Hr' & ->) | (Hr' & h' & Hh' & ->)]; simpl.
  - assert (Hne : inode ≠ key) by congruence.
    rewrite lookup_delete_ne by done.
    destruct (decide (key ∈ members)) as [Hin|Hin].
    + rewrite !bool_decide_eq_true_2; [done | by right | done].
    + rewrite !bool_decide_eq_false_2; [done | | done].
      intros [?|?]%elem_of_cons; congruence.
  - rewrite lookup_alter.
    destruct (decide (inode = key)) as [->|Hne].
    + assert (h' = h) as -> by congruence.
      rewrite (bool_decide_eq_true_2 (key ∈ key :: members)); [|by left].
      destruct (inodes st !! key) as [row|]; simpl; [|done].
      by case_bool_decide.
    + destruct (decide (key ∈ members)) as [Hin|Hin].
      * rewrite !bool_decide_eq_true_2; [done | by right | done].
      * rewrite !bool_decide_eq_false_2; [done | | done].
        intros [?|?]%elem_of_cons; congruence.
Qed.

(** The row of a member whose path does not resolve is deleted, and no
    row is ever added. *)
Lemma mini_hash_loop_gone (members : list InodeRef) (st st' : Session)
    (key : InodeRef) :
  for_each (mini_hash_step volume_of) members st = Ok st' →
  resolves volume_of key = false →
  key ∈ members ∨ inodes st !! key = None →
  inodes st' !! key = None.
Proof.
  intros Hrun Hr. revert st Hrun.
  induction members as [|inode members IH]; intros st Hrun Hkey.
  { injection Hrun as <-. destruct Hkey as [Hin|?]; [|done].
    by apply elem_of_nil in Hin. }
  rewrite for_each_cons in Hrun.
  destruct (mini_hash_step volume_of st inode) as [st1|e] eqn:Hstep; [|done].
  simpl in Hrun. apply (IH st1 Hrun).
  destruct (decide (key ∈ members)) as [Hin|Hin]; [by left|right].
  destruct (mini_hash_step_inv _ _ _ Hstep)
    as [(Hr' & ->) | (Hr' & h' & Hh' & ->)]; simpl.
  - destruct (decide (inode = key)) as [->|Hne].
    + by rewrite lookup_delete_eq.
    + rewrite lookup_delete_ne by done.
      destruct Hkey as [[?|?]%elem_of_cons|?]; congruence.
  - assert (Hne : inode ≠ key) by congruence.
    rewrite lookup_alter, decide_False by done.
    destruct Hkey as [[?|?]%elem_of_cons|?]; congruence.
Qed.
End MiniHash.

(** The head of the file of inode 257 is hashed again although the row
    carries its hash. *)
Lemma mini_hash_counterexample :
  ¬ mini_hash_only_missing_as_stated (H := ex_kernel) (fun _ => ex_vol)
      ex_comm1 ex_hashed_session.
Proof.
  intros Hc.
  apply (Hc (mkSession
               (list_to_map
                  [ ((1, 257), mkInode 10485760 false (Some 11) None);
                    ((1, 258), mkInode 10485760 true (Some 11) None) ])
               [] [] 1024 [CallMiniHash (1, 257); CallMiniHash (1, 258)])
            eq_refl (1, 257) (mkInode 10485760 false (Some 11) None) 11).
  - by left.
  - reflexivity.
  - reflexivity.
  - by left.
Qed.

(** C8, amended.  For every Commonality1 group that the grouper gets
    through, [mini_hash] is computed once for every member inode whose
    path resolves, whether the row already carries one or not, in the
    order of the members, and it is stored: the row of such a member is
    still there, with the hash of its file as [mini_hash] and its other
    columns as they were.  The row of a member whose path lookup fails
    with ENOENT is deleted. *)
Theorem mini_hash_every_member `{Kernel} (volume_of : Z → Volume)
    (comm1 : Commonality1) (st st' : Session) :
  for_each (mini_hash_step volume_of) (c1_inodes comm1) st = Ok st' →
  calls st'
  = calls st
    ++ map CallMiniHash
         (filter (fun i => resolves volume_of i = true) (c1_inodes comm1))
  ∧ ∀ inode, inode ∈ c1_inodes comm1 →
      if resolves volume_of inode
      then ∃ h, expected_mini_hash volume_of inode = Some h
                ∧ inodes st' !! inode = set_mini_hash h <$> inodes st !! inode
      else inodes st' !! inode = None.
Proof.
  intros Hrun. split; [by apply mini_hash_loop|].
  intros inode Hin.
  destruct (resolves volume_of inode) eqn:Hr.
  - destruct (mini_hash_loop_opened volume_of _ _ _ _ Hrun Hin Hr) as [h Hh].
    exists h. split; [done|].
    rewrite (mini_hash_loop_stored volume_of _ _ _ _ h Hrun Hr Hh).
    by rewrite bool_decide_eq_true_2.
  - apply (mini_hash_loop_gone volume_of _ _ _ _ Hrun Hr). by left.
Qed.

Lemma mini_hash_every_member_witness :
  ∃ st', for_each (mini_hash_step (H := ex_kernel) (fun _ => ex_vol))
           (c1_inodes ex_comm1) ex_hashed_session = Ok st'
         ∧ calls st' = [CallMiniHash (1, 257); CallMiniHash (1, 258)]
         ∧ inodes st' !! (1, 257)
           = Some (mkInode 10485760 false (Some 11) None)
         ∧ inodes st' !! (1, 258)
           = Some (mkInode 10485760 true (Some 11) None).
Proof.
  destruct (for_each (mini_hash_step (H := ex_kernel) (fun _ => ex_vol))
              (c1_inodes ex_comm1) ex_hashed_session) as [st'|e] eqn:Hrun;
    [|vm_compute in Hrun; discriminate].
  exists st'. split; [reflexivity|].
  destruct (mini_hash_every_member (H := ex_kernel) (fun _ => ex_vol) ex_comm1
              ex_hashed_session st' Hrun) as [Hcalls Hrows].
  split; [rewrite Hcalls; vm_compute; reflexivity|].
  split.
  - destruct (Hrows (1, 257)) as (h & Hh & Hrow); [by left|].
    vm_compute in Hh. injection Hh as <-. rewrite Hrow. reflexivity.
  - destruct (Hrows (1, 258)) as (h & Hh & Hrow); [by right; left|].
    vm_compute in Hh. injection Hh as <-. rewrite Hrow. reflexivity.
Defined.

Section CloneStep.
Context `{Kernel}.

(** When every comparison answers that the files are equal and every
    clone returns, the loop calls [clone_data] on each destination, in
    order, and keeps those for which it returned true. *)
Lemma clone_loop_equal (sfd : Z) (dfiles : list Z) (st : Session)
    (successful : list Z) :
  Forall (clone_returns sfd) dfiles →
  ∃ st1,
    clone_loop sfd dfiles st successful
    = Ok (st1, successful
               ++ filter (fun dfd => clone_data dfd sfd = Ok true) dfiles)
    ∧ calls st1 = calls st ++ map (fun dfd => CallClone dfd sfd) dfiles
    ∧ dedup_events st1 = dedup_events st
    ∧ inodes st1 = inodes st
    ∧ skipped st1 = skipped st.
Proof.
  intros Hcmp. revert st successful.
  induction Hcmp as [|dfd dfiles [Hd [b Hb]] Hcmp IH]; intros st successful.
  { exists st. simpl. by rewrite !app_nil_r. }
  simpl. rewrite Hd, filter_cons, Hb. simpl.
  destruct b; simpl.
  - destruct (IH (add_call (CallClone dfd sfd) st) (successful ++ [dfd]))
      as (st1 & Hrun & Hcalls & Hev & Hin & Hsk).
    exists st1. rewrite Hrun, Hcalls. simpl.
    by rewrite <- !app_assoc.
  - destruct (IH (add_call (CallClone dfd sfd) st) successful)
      as (st1 & Hrun & Hcalls & Hev & Hin & Hsk).
    exists st1. rewrite Hrun, Hcalls. simpl.
    by rewrite <- !app_assoc.
Qed.

(** A destination whose comparison raises or answers that the files
    differ, or whose clone raises, ends the loop with that exception,
    whatever was cloned before it. *)
Lemma clone_loop_differ (sfd dfd : Z) (before after : list Z) (st : Session)
    (successful : list Z) (e : exn) :
  Forall (clone_returns sfd) before →
  clone_raises sfd dfd e →
  clone_loop sfd (before ++ dfd :: after) st successful = Raise e.
Proof.
  intros Hcmp Hd. revert st successful.
  induction Hcmp as [|d before [Hc [b Hb]] Hcmp IH]; intros st successful; simpl.
  - destruct Hd as [Hd | [[Hd ->] | [Hd Hcl]]]; rewrite Hd; simpl; [done..|].
    by rewrite Hcl.
  - rewrite Hc, Hb. simpl. destruct b; apply IH.
Qed.

(** Every bucket is of one kind or of the other. *)
Lemma clone_loop_cases (sfd : Z) (dfiles : list Z) :
  Forall (clone_returns sfd) dfiles
  ∨ ∃ before dfd after e,
      dfiles = before ++ dfd :: after
      ∧ Forall (clone_returns sfd) before
      ∧ clone_raises sfd dfd e.
Proof.
  induction dfiles as [|d dfiles IH]; [by left|].
  destruct (cmp_files sfd d) as [[|]|e] eqn:Hcmp.
  - destruct (clone_data d sfd) as [b|e] eqn:Hclone.
    + assert (Hd : clone_returns sfd d) by (split; [done | by exists b]).
      destruct IH as [Hall | (before & dfd & after & e & -> & Hall & Hr)].
      * left. by constructor.
      * right. exists (d :: before), dfd, after, e.
        split; [done|]. split; [by constructor | done].
    + right. exists [], d, dfiles, e. split; [done|]. split; [constructor|].
      right. right. by split.
  - right. exists [], d, dfiles, AssertionError.
    split; [done|]. split; [constructor|]. right. left. by split.
  - right. exists [], d, dfiles, e.
    split; [done|]. split; [constructor|]. by left.
Qed.

Lemma dedup_fileset_unfold (comm3 : Commonality3) (fdi : gmap Z InodeRef)
    (st : Session) (sfd dfd : Z) (dfiles : list Z) :
  dedup_fileset comm3 fdi st (sfd :: dfd :: dfiles)
  = clone_loop sfd (dfd :: dfiles) st [] ≫= fun r =>
      match r.2 with
      | [] => Ok r.1
      | _ :: _ =>
          inodes_of_files fdi (sfd :: r.2) ≫= fun evti =>
            Ok (add_event (mkDedupEvent (c3_size comm3) evti) r.1)
      end.
Proof. done. Qed.

Lemma inodes_of_files_registered (fdi : gmap Z InodeRef) (fds : list Z) :
  (∀ fd, fd ∈ fds → is_Some (fdi !! fd)) →
  ∃ evti, inodes_of_files fdi fds = Ok evti
          ∧ Forall2 (fun fd inode => fdi !! fd = Some inode) fds evti.
Proof.
  induction fds as [|fd fds IH]; intros Hreg; simpl.
  { exists []. by split. }
  destruct (Hreg fd) as [inode Hfd]; [by left|]. rewrite Hfd.
  destruct IH as (evti & Hrun & Hall).
  { intros fd' Hin. apply Hreg. by right. }
  rewrite Hrun. simpl. exists (inode :: evti). split; [done|]. by constructor.
Qed.
End CloneStep.

(** The first destination is cloned, the second one compares different
    from the source: the run ends on the failed assertion and no event
    is written for the bucket. *)
Lemma bucket_event_counterexample :
  ¬ bucket_event_as_stated (H := ex_kernel_differ) ex_comm3 ex_fd_inodes
      ex_session 357 [358; 359].
Proof.
  intros [Hcreated _].
  destruct Hcreated as (st' & evti & Hrun & _).
  - exists 358. split; [by left | reflexivity].
  - vm_compute in Hrun. discriminate.
Qed.

(** C3, amended.  For every hash bucket with at least two files, all of
    them registered when they were opened.  When every comparison of a
    destination with the source answers that the files are equal and
    every call of [clone_data] returns: [clone_data] is called once for
    each destination, a DedupEvent row, with the size of the cohort as
    [item_size], is created if and only if [clone_data] returned true
    for at least one destination, and its DedupEventInode rows are one
    for the source file followed by one for each destination whose
    call returned true; the destinations for which it returned false
    are not recorded.  When a comparison raises or answers that the
    files differ, or a clone raises, the step ends with that exception,
    the failed assertion for files that differ, and no event is written,
    whatever [clone_data] returned for the destinations before.  Every
    bucket is of one kind or of the other. *)
Theorem bucket_event `{Kernel} (comm3 : Commonality3) (fdi : gmap Z InodeRef)
    (st : Session) (sfd : Z) (dfiles : list Z) :
  (1 <= length dfiles)%nat →
  (∀ fd, fd ∈ sfd :: dfiles → is_Some (fdi !! fd)) →
  let successful := filter (fun dfd => clone_data dfd sfd = Ok true) dfiles in
  (Forall (clone_returns sfd) dfiles →
   ∃ st',
     dedup_fileset comm3 fdi st (sfd :: dfiles) = Ok st'
     ∧ calls st' = calls st ++ map (fun dfd => CallClone dfd sfd) dfiles
     ∧ ((¬ ∃ dfd, dfd ∈ dfiles ∧ clone_data dfd sfd = Ok true) →
        dedup_events st' = dedup_events st)
     ∧ ((∃ dfd, dfd ∈ dfiles ∧ clone_data dfd sfd = Ok true) →
        ∃ evti,
          dedup_events st'
          = dedup_events st ++ [mkDedupEvent (c3_size comm3) evti]
          ∧ Forall2 (fun fd inode => fdi !! fd = Some inode)
                    (sfd :: successful) evti))
  ∧ (∀ before dfd after e,
       dfiles = before ++ dfd :: after →
       Forall (clone_returns sfd) before →
       clone_raises sfd dfd e →
       dedup_fileset comm3 fdi st (sfd :: dfiles) = Raise e)
  ∧ (Forall (clone_returns sfd) dfiles
     ∨ ∃ before dfd after e,
         dfiles = before ++ dfd :: after
         ∧ Forall (clone_returns sfd) before
         ∧ clone_raises sfd dfd e).
Proof.
  intros Hlen Hreg successful. split_and!; [| |apply clone_loop_cases].
  - intros Hcmp.
    destruct (clone_loop_equal sfd dfiles st [] Hcmp)
      as (st1 & Hrun & Hcalls & Hev & _).
    fold successful in Hrun.
    assert (Hsucc : ∀ d, d ∈ successful
                         ↔ clone_data d sfd = Ok true ∧ d ∈ dfiles)
      by (intros d; unfold successful; by rewrite list_elem_of_filter).
    clearbody successful.
    destruct dfiles as [|d0 dfiles']; [simpl in Hlen; lia|].
    rewrite dedup_fileset_unfold, Hrun, result_bind_ok.
    cbn [fst snd app].
    destruct successful as [|d successful'].
    + exists st1. split_and!; [done | done | by intros _ |].
      intros (d & Hin & Hclone).
      assert (Hd : d ∈ []) by by apply Hsucc.
      by apply elem_of_nil in Hd.
    + destruct (inodes_of_files_registered fdi (sfd :: d :: successful'))
        as (evti & Hevti & Hall).
      { intros fd [->|Hin]%elem_of_cons; [apply Hreg; by left|].
        apply Hreg. right. by apply Hsucc in Hin as [_ ?]. }
      rewrite Hevti, result_bind_ok. eexists. split_and!; [done | done | |].
      * intros Hno. destruct Hno. exists d.
        assert (Hd : d ∈ d :: successful') by by left.
        apply Hsucc in Hd as [? ?]. by split.
      * intros _. exists evti. simpl. by rewrite Hev.
  - intros before dfd after e Hdfiles Hbefore Hraise.
    destruct dfiles as [|d0 dfiles']; [simpl in Hlen; lia|].
    rewrite dedup_fileset_unfold, Hdfiles.
    by rewrite (clone_loop_differ sfd dfd before after st [] e).
Qed.

Lemma bucket_event_witness :
  (∃ st',
     dedup_fileset (H := ex_kernel_shared) ex_comm3 ex_fd_inodes ex_session
       [357; 358; 359] = Ok st'
     ∧ calls st' = [CallClone 358 357; CallClone 359 357]
     ∧ ∃ evti, dedup_events st' = [mkDedupEvent 10485760 evti]
               ∧ Forall2 (fun fd inode => ex_fd_inodes !! fd = Some inode)
                         [357; 359] evti)
  ∧ dedup_fileset (H := ex_kernel_clone_error) ex_comm3 ex_fd_inodes ex_session
      [357; 358; 359] = Raise (IOError 5).
Proof.
  assert (Hreg : ∀ fd, fd ∈ [357; 358; 359] → is_Some (ex_fd_inodes !! fd)).
  { intros fd Hin.
    repeat (apply elem_of_cons in Hin as [->|Hin]; [by eexists|]).
    by apply elem_of_nil in Hin. }
  split.
  - destruct (bucket_event (H := ex_kernel_shared) ex_comm3 ex_fd_inodes
                ex_session 357 [358; 359]) as (Hreturns & _ & _).
    + simpl. lia.
    + exact Hreg.
    + destruct Hreturns as (st' & Hrun & Hcalls & _ & Hevent).
      * repeat constructor; by eexists.
      * exists st'. split; [done|]. split; [done|].
        apply Hevent. exists 359. split; [by right; left | reflexivity].
  - destruct (bucket_event (H := ex_kernel_clone_error) ex_comm3 ex_fd_inodes
                ex_session 357 [358; 359]) as (_ & Hraises & _).
    + simpl. lia.
    + exact Hreg.
    + apply (Hraises [358] 359 [] (IOError 5)); [reflexivity | |].
      * repeat constructor. by eexists.
      * right. right. by split.
Defined.

(** The files of the buckets that the clone step receives were all
    registered in [fd_inodes]: a file whose descriptor is not there
    raises before it is hashed. *)
Lemma hash_phase_registered `{Kernel} (volume_of : Z → Volume)
    (comm3 : Commonality3) (in_write_use : list Z) (fdi : gmap Z InodeRef)
    (fds : list Z) (st st' : Session) (by_hash by_hash' : gmap Z (list Z)) :
  for_each (hash_step volume_of comm3 in_write_use fdi) fds (st, by_hash)
  = Ok (st', by_hash') →
  (∀ digest fileset fd,
     by_hash !! digest = Some fileset → fd ∈ fileset → is_Some (fdi !! fd)) →
  ∀ digest fileset fd,
    by_hash' !! digest = Some fileset → fd ∈ fileset → is_Some (fdi !! fd).
Proof.
  revert st by_hash. induction fds as [|fd0 fds IH]; intros st by_hash Hrun Hreg.
  { by injection Hrun as <- <-. }
  rewrite for_each_cons in Hrun.
  destruct (hash_step volume_of comm3 in_write_use fdi (st, by_hash) fd0)
    as [[st1 by_hash1]|e] eqn:Hstep; [|done].
  rewrite result_bind_ok in Hrun.
  apply (IH st1 by_hash1 Hrun).
  unfold hash_step in Hstep.
  destruct (fdi !! fd0) as [inode|] eqn:Hfd0; [|done].
  repeat match type of Hstep with
    | (if ?b then _ else _) = _ => destruct b
    end;
    injection Hstep as <- <-; try done.
  intros digest fileset fd Hd Hin.
  destruct (decide (sha1_digest fd0 = digest)) as [<-|Hne].
  - rewrite lookup_insert_eq in Hd. injection Hd as <-.
    apply elem_of_app in Hin as [Hin|Hin].
    + destruct (by_hash !! sha1_digest fd0) as [l|] eqn:Hl; simpl in Hin.
      * by eapply Hreg.
      * by apply elem_of_nil in Hin.
    + apply list_elem_of_singleton in Hin as ->. by eexists.
  - rewrite lookup_insert_ne in Hd by done. by eapply Hreg.
Qed.


(** * Further properties of the module *)

(** ** The scanner, beyond the watermark *)

(** X1. A scan that returned is not repeated at the same root
    generation: whatever the tree search would answer, a second scan of
    the volume at that generation returns with the rows and the volume
    as the first one left them. *)
Theorem rescan_same_generation `{Kernel} (top : Z)
    (replies replies' : list (result (list SearchItem)))
    (store store' : Store) (vol vol' : Volume) :
  track_updated_files top replies store vol = Ok (store', vol') →
  track_updated_files top replies' store' vol' = Ok (store', vol').
Proof.
  intros Hrun.
  assert (Hskip : top < min_generation vol').
  { destruct (track_updated_files_inv _ _ _ _ _ _ Hrun)
      as [(Hlt & _ & ->) | (_ & _ & ->)]; [done|].
    unfold min_generation. simpl.
    destruct (Z.leb_spec (size_cutoff vol) (size_cutoff vol)); lia. }
  unfold track_updated_files.
  by destruct (Z.gtb_spec (min_generation vol') top); [|lia].
Qed.

Lemma rescan_same_generation_witness :
  ∃ store' vol',
    track_updated_files (H := ex_kernel) 60 [Ok [ex_item]; Ok []] ex_store ex_vol
    = Ok (store', vol')
    ∧ track_updated_files (H := ex_kernel) 60 [Ok [ex_item]] store' vol'
      = Ok (store', vol').
Proof.
  destruct (track_updated_files (H := ex_kernel) 60 [Ok [ex_item]; Ok []]
              ex_store ex_vol) as [[store' vol']|e] eqn:Hrun;
    [|vm_compute in Hrun; discriminate].
  exists store', vol'. split; [reflexivity|].
  by apply (rescan_same_generation (H := ex_kernel) 60 _ _ _ _ _ _ Hrun).
Defined.

Section ScanRows.
Context `{Kernel}.

(** What a scan may do to a row: leave it, or write one of the volume
    that is at or above the cutoff and flagged. *)
Let kept_or_tracked (vol : Volume) (store store' : Store) : Prop :=
  (∀ key, key.1 ≠ vol_id vol → store' !! key = store !! key)
  ∧ (∀ key row', store' !! key = Some row' →
       store !! key = Some row'
       ∨ (key.1 = vol_id vol ∧ size_cutoff vol <= size row'
          ∧ has_updates row' = true)).

Lemma track_item_cases (vol : Volume) (min_gen : Z) (store : Store)
    (it : SearchItem) :
  track_item vol min_gen store it = store
  ∨ (∃ row, track_item vol min_gen store it
            = <[(vol_id vol, sh_objectid it) := row]> store
            ∧ size_cutoff vol <= size row ∧ has_updates row = true)
  ∨ track_item vol min_gen store it
    = delete (vol_id vol, sh_objectid it) store.
Proof.
  unfold track_item.
  destruct (sh_type it =? BTRFS_INODE_ITEM_KEY); [|by left].
  destruct (filtered_out vol min_gen it) eqn:Hf; [by left|].
  assert (Hsz : size_cutoff vol <= item_size it).
  { unfold filtered_out in Hf.
    destruct (Z.ltb_spec (item_size it) (size_cutoff vol)); [done|lia]. }
  unfold get_or_create.
  destruct (store !! (vol_id vol, sh_objectid it)) as [row|];
    destruct (lookup_ino_path_one _ _); auto.
  - right. left. eexists. by split.
  - right. left. eexists. by split.
Qed.

Lemma track_item_kept_or_tracked (vol : Volume) (min_gen : Z)
    (store0 store : Store) (it : SearchItem) :
  kept_or_tracked vol store0 store →
  kept_or_tracked vol store0 (track_item vol min_gen store it).
Proof.
  intros [Hother Hrows].
  destruct (track_item_cases vol min_gen store it)
    as [-> | [(row & -> & Hsz & Hup) | ->]]; [done| |]; split.
  - intros key Hkey. rewrite lookup_insert_ne; [by apply Hother|].
    intros <-. by apply Hkey.
  - intros key row' [[<- <-] | [_ Hrow]]%lookup_insert_Some; [by right|].
    by apply Hrows.
  - intros key Hkey. rewrite lookup_delete_ne; [by apply Hother|].
    intros <-. by apply Hkey.
  - intros key row' [_ Hrow]%lookup_delete_Some. by apply Hrows.
Qed.

Lemma scan_replies_kept_or_tracked (vol : Volume) (min_gen : Z)
    (replies : list (result (list SearchItem))) (store0 store store' : Store) :
  scan_replies vol min_gen replies store = Ok store' →
  kept_or_tracked vol store0 store → kept_or_tracked vol store0 store'.
Proof.
  revert store. induction replies as [|reply replies IH]; intros store Hrun Hk.
  { by injection Hrun as <-. }
  simpl in Hrun. destruct reply as [items|e]; [|done].
  destruct items as [|item items]; [by injection Hrun as <-|].
  apply (IH _ Hrun). clear Hrun IH.
  remember (item :: items) as l eqn:Hl. clear Hl item items.
  revert store Hk. induction l as [|it l IHl]; intros store Hk; [done|].
  simpl. apply IHl. by apply track_item_kept_or_tracked.
Qed.

Lemma track_updated_files_kept_or_tracked (top : Z)
    (replies : list (result (list SearchItem)))
    (store store' : Store) (vol vol' : Volume) :
  track_updated_files top replies store vol = Ok (store', vol') →
  kept_or_tracked vol store store'.
Proof.
  intros Hrun.
  destruct (track_updated_files_inv _ _ _ _ _ _ Hrun)
    as [(_ & -> & _) | (_ & Hscan & _)].
  - split; [done|]. intros key row' Hrow. by left.
  - eapply scan_replies_kept_or_tracked; [exact Hscan|].
    split; [done|]. intros key row' Hrow. by left.
Qed.
End ScanRows.

(** X2. A scan that returns has not created, changed or deleted a row
    of another volume, and every row it leaves in the table is either as
    it was before or a row of the scanned volume with a size at or above
    the size cutoff and [has_updates] true. *)
Theorem scan_rows `{Kernel} (top : Z)
    (replies : list (result (list SearchItem)))
    (store store' : Store) (vol vol' : Volume) :
  track_updated_files top replies store vol = Ok (store', vol') →
  (∀ key, key.1 ≠ vol_id vol → store' !! key = store !! key)
  ∧ (∀ key row', store' !! key = Some row' →
       store !! key = Some row'
       ∨ (key.1 = vol_id vol ∧ size_cutoff vol <= size row'
          ∧ has_updates row' = true)).
Proof. apply track_updated_files_kept_or_tracked. Qed.

Lemma scan_rows_witness :
  ∃ store' vol',
    track_updated_files (H := ex_kernel) 60 [Ok [ex_item]; Ok []]
      ex_two_volumes ex_vol = Ok (store', vol')
    ∧ store' !! (2, 300) = ex_two_volumes !! (2, 300).
Proof.
  destruct (track_updated_files (H := ex_kernel) 60 [Ok [ex_item]; Ok []]
              ex_two_volumes ex_vol) as [[store' vol']|e] eqn:Hrun;
    [|vm_compute in Hrun; discriminate].
  exists store', vol'. split; [reflexivity|].
  destruct (scan_rows (H := ex_kernel) 60 _ _ _ _ _ Hrun) as [Hother _].
  apply Hother. simpl. lia.
Defined.

(** X3. After the size cutoff was lowered, a regular file whose size is
    between the new cutoff and the one of the last scan is stored,
    flagged, whatever its generation: the watermark of the last scan
    does not hide the files that have become eligible. *)
Theorem lowered_cutoff_finds_files `{Kernel} (vol : Volume) (s_prev : Z)
    (store : Store) (it : SearchItem) (path : Z) :
  last_tracked_size_cutoff vol = Some s_prev →
  size_cutoff vol <= item_size it < s_prev →
  0 <= item_generation it →
  sh_type it = BTRFS_INODE_ITEM_KEY →
  S_ISREG (item_mode it) = true →
  lookup_ino_path_one (vol_fd vol) (sh_objectid it) = inl path →
  ∃ row, track_item vol (min_generation vol) store it
         !! (vol_id vol, sh_objectid it) = Some row
         ∧ size row = item_size it ∧ has_updates row = true.
Proof.
  intros Hprev Hsz Hgen Hty Hreg Hpath.
  assert (Hf : filtered_out vol (min_generation vol) it = false).
  { unfold filtered_out, covered_last_time, min_generation.
    rewrite Hprev, Hreg.
    destruct (Z.ltb_spec (item_size it) (size_cutoff vol)); [lia|].
    destruct (Z.leb_spec s_prev (item_size it)); [lia|].
    rewrite andb_false_r.
    destruct (Z.leb_spec s_prev (size_cutoff vol)); [lia|].
    by destruct (Z.ltb_spec (item_generation it) 0); [lia|]. }
  unfold track_item. rewrite Hty, Z.eqb_refl, Hf, Hpath.
  destruct (get_or_create store (vol_id vol, sh_objectid it)) as [inode created].
  eexists. by rewrite lookup_insert_eq.
Qed.

Lemma lowered_cutoff_finds_files_witness :
  ∃ row,
    track_item (H := ex_kernel) (set_size_cutoff 4194304 ex_vol)
      (min_generation (set_size_cutoff 4194304 ex_vol)) ex_store
      (mkSearchItem 300 1 7 5242880 33188) !! (1, 300) = Some row
    ∧ size row = 5242880 ∧ has_updates row = true.
Proof.
  apply (lowered_cutoff_finds_files (H := ex_kernel)
           (set_size_cutoff 4194304 ex_vol) 8388608 ex_store
           (mkSearchItem 300 1 7 5242880 33188) 300);
    try reflexivity; simpl; lia.
Defined.

(** X4. [forget_vol] removes every row of the volume and no row of
    another volume, resets the generation watermark to 0 and keeps both
    size cutoffs; the scan that follows takes every regular file of a
    generation of 1 or more that is at or above the size cutoff. *)
Theorem forget_vol_rescan (store : Store) (vol : Volume) :
  (∀ key, (forget_vol store vol).1 !! key
          = if decide (key.1 = vol_id vol) then None else store !! key)
  ∧ last_tracked_generation (forget_vol store vol).2 = 0
  ∧ size_cutoff (forget_vol store vol).2 = size_cutoff vol
  ∧ last_tracked_size_cutoff (forget_vol store vol).2
    = last_tracked_size_cutoff vol
  ∧ ∀ it, size_cutoff vol <= item_size it →
          1 <= item_generation it →
          S_ISREG (item_mode it) = true →
          filtered_out (forget_vol store vol).2
            (min_generation (forget_vol store vol).2) it = false.
Proof.
  split_and!; try done.
  - intros key. simpl.
    destruct (store !! key) as [row|] eqn:Hrow.
    + destruct (decide (key.1 = vol_id vol)) as [Heq|Hne].
      * apply map_lookup_filter_None. right. intros row' _. simpl. tauto.
      * by apply map_lookup_filter_Some.
    + assert (filter (fun kv : InodeRef * Inode => kv.1.1 ≠ vol_id vol) store
              !! key = None) as ->.
      { apply map_lookup_filter_None. by left. }
      by destruct (decide _).
  - intros it Hsz Hgen Hreg.
    unfold filtered_out, covered_last_time, min_generation. simpl.
    rewrite Hreg.
    destruct (last_tracked_size_cutoff vol) as [s_prev|]; simpl;
      repeat match goal with
        | |- context [?a <? ?b] => destruct (Z.ltb_spec a b)
        | |- context [?a <=? ?b] => destruct (Z.leb_spec a b)
        | |- context [?a =? ?b] => destruct (Z.eqb_spec a b)
        | Hc : context [?a <=? ?b] |- _ => destruct (Z.leb_spec a b)
        end; simpl; try done; lia.
Qed.

Lemma forget_vol_rescan_witness :
  (forget_vol ex_two_volumes ex_vol).1 !! (1, 257) = None
  ∧ (forget_vol ex_two_volumes ex_vol).1 !! (2, 300)
    = ex_two_volumes !! (2, 300)
  ∧ filtered_out (forget_vol ex_two_volumes ex_vol).2
      (min_generation (forget_vol ex_two_volumes ex_vol).2) ex_item = false.
Proof.
  destruct (forget_vol_rescan ex_two_volumes ex_vol) as (Hrows & _ & _ & _ & Hf).
  split; [|split].
  - by rewrite Hrows.
  - by rewrite Hrows.
  - apply Hf; [simpl; lia | simpl; lia | reflexivity].
Defined.

(** ** The generator, beyond the windows *)

Lemma filter_all {A : Type} (P : A → Prop) `{∀ x, Decision (P x)} (l : list A) :
  Forall P l → filter P l = l.
Proof.
  induction 1 as [|x l Hx Hl IH]; [done|].
  by rewrite filter_cons_True, IH.
Qed.

Lemma filter_none {A : Type} (P : A → Prop) `{∀ x, Decision (P x)} (l : list A) :
  Forall (fun x => ¬ P x) l → filter P l = [].
Proof.
  induction 1 as [|x l Hx Hl IH]; [done|].
  by rewrite filter_cons_False.
Qed.

Lemma yields_page (page : list Commonality1) (window_start window_end : Z)
    (rest : list GenEvent) :
  yields (map Yield page ++ ClearUpdates window_start window_end :: rest)
  = page ++ yields rest.
Proof. induction page as [|el page IH]; simpl; [done|]. by f_equal. Qed.

Section OrderByDistinct.
Context {A : Type} (attr : A → Z).

Lemma insert_desc_strict (x : A) (l : list A) :
  StronglySorted (fun a b => attr b < attr a) l →
  Forall (fun y => attr y ≠ attr x) l →
  StronglySorted (fun a b => attr b < attr a) (insert_desc attr x l).
Proof.
  induction 1 as [|z l Hs IH Hall]; intros Hne; simpl.
  - by repeat constructor.
  - apply Forall_cons in Hne as [Hz Hne].
    destruct (Z.ltb_spec (attr z) (attr x)).
    + constructor; [by constructor|].
      constructor; [lia|].
      eapply Forall_impl; [exact Hall|]. simpl. intros. lia.
    + constructor; [by apply IH|].
      apply Forall_forall. intros y Hy.
      apply elem_of_insert_desc in Hy as [->|Hy]; [lia|].
      by eapply Forall_forall in Hall.
Qed.

Lemma order_by_desc_strict (l : list A) :
  NoDup (map attr l) →
  StronglySorted (fun a b => attr b < attr a) (order_by_desc attr l).
Proof.
  induction l as [|x l IH]; simpl; [constructor|].
  intros [Hx Hl]%NoDup_cons.
  apply insert_desc_strict; [by apply IH|].
  apply Forall_forall. intros y Hy Heq.
  apply elem_of_order_by_desc in Hy.
  apply Hx. rewrite <- Heq. apply list_elem_of_fmap. by exists y.
Qed.
End OrderByDistinct.

Section WindowedYields.
Variable query : list Commonality1.
Variable per : nat.
Hypothesis Hdistinct : NoDup (map c1_size query).
Hypothesis Hper : (0 < per)%nat.

Let at_or_below (window_start : Z) : list Commonality1 :=
  filter (fun el => c1_size el <=? window_start) (order_by_desc c1_size query).

(** The rows at or below a window are its page and the rows at or
    below the next window. *)
Lemma page_and_rest (window_start : Z) (last_el : Commonality1) :
  last (take per (at_or_below window_start)) = Some last_el →
  at_or_below window_start
  = take per (at_or_below window_start)
    ++ at_or_below (c1_size last_el - 1).
Proof.
  intros Hlast.
  assert (Hs : StronglySorted (fun a b => c1_size b < c1_size a)
                 (at_or_below window_start)).
  { eapply sublist_strongly_sorted; [apply sublist_filter|].
    by apply order_by_desc_strict. }
  assert (Hle : c1_size last_el <= window_start).
  { apply last_Some_elem_of in Hlast.
    by apply (page_at_elem query per) in Hlast as [_ ?]. }
  rewrite <- (take_drop per (at_or_below window_start)) at 1. f_equal.
  assert (Heq : at_or_below (c1_size last_el - 1)
                = filter (fun el => c1_size el <=? c1_size last_el - 1)
                    (at_or_below window_start)).
  { unfold at_or_below. rewrite list_filter_filter.
    apply list_filter_iff. intros x.
    rewrite !Is_true_true, !Z.leb_le. lia. }
  rewrite Heq.
  rewrite <- (take_drop per (at_or_below window_start)) at 2.
  rewrite <- (take_drop per (at_or_below window_start)) in Hs.
  rewrite filter_app.
  apply last_Some in Hlast as [page' Hpage].
  rewrite filter_none, filter_all; [done| |].
  - apply Forall_forall. intros x Hx.
    apply Is_true_true, Z.leb_le.
    assert (c1_size x < c1_size last_el); [|lia].
    eapply (StronglySorted_app_1_elem_of _ _ _ last_el x) in Hs; [done| |done].
    rewrite Hpage. apply elem_of_app. right. by left.
  - apply Forall_forall. intros x Hx.
    rewrite Is_true_true, Z.leb_le.
    rewrite Hpage in Hx, Hs.
    apply elem_of_app in Hx as [Hx|Hx].
    + apply StronglySorted_app in Hs as (_ & Hs & _).
      eapply (StronglySorted_app_1_elem_of _ _ _ x last_el) in Hs;
        [simpl in Hs; lia | done | by left].
    + apply list_elem_of_singleton in Hx as ->. lia.
Qed.

Lemma windowed_query_yields_run (fuel : nat) (window_start : Z) :
  (length (filter (fun el => (c1_size el <=? window_start)%Z) query) < fuel)%nat →
  ∃ evs, windowed_query fuel window_start query c1_size per = Some evs
         ∧ yields evs = at_or_below window_start.
Proof.
  revert window_start. induction fuel as [|fuel IH]; intros ws Hfuel; [lia|].
  simpl. fold (at_or_below ws).
  destruct (last (take per (at_or_below ws))) as [last_el|] eqn:Hlast.
  - destruct (IH (c1_size last_el - 1)) as (rest & Hrest & Hy).
    { pose proof (next_window_smaller query per ws last_el Hlast). lia. }
    rewrite Hrest. simpl. eexists. split; [done|].
    rewrite yields_page, Hy. symmetry. by apply page_and_rest.
  - eexists. split; [done|]. simpl.
    apply last_None in Hlast.
    destruct per as [|n]; [lia|].
    by destruct (at_or_below ws).
Qed.
End WindowedYields.

(** X5. When no two rows of the query have the same size, as for the
    rows of Commonality1, and a page has room for a row, a run of
    [windowed_query] that starts at [W] yields exactly the rows whose
    size is at most [W], each once, by size from the largest to the
    smallest. *)
Theorem windowed_query_yields (fuel : nat) (W : Z)
    (query : list Commonality1) (per : nat) :
  NoDup (map c1_size query) →
  (0 < per)%nat →
  (length query < fuel)%nat →
  ∃ evs, windowed_query fuel W query c1_size per = Some evs
         ∧ yields evs
           = filter (fun el => c1_size el <=? W) (order_by_desc c1_size query).
Proof.
  intros Hd Hper Hfuel.
  apply windowed_query_yields_run; [done | done |].
  pose proof (length_filter (fun el => c1_size el <=? W) query). lia.
Qed.

Lemma windowed_query_yields_witness :
  ∃ evs, windowed_query 4 25 ex_query c1_size 1 = Some evs
         ∧ yields evs = [ mkComm1 20 3 [(1, 5); (1, 6); (1, 7)];
                          mkComm1 10 2 [(1, 1); (1, 2)] ].
Proof.
  destruct (windowed_query_yields 4 25 ex_query 1) as (evs & Hrun & Hy).
  - simpl. repeat (constructor; [rewrite ?elem_of_cons, ?elem_of_nil; lia|]).
    constructor.
  - lia.
  - simpl. lia.
  - exists evs. split; [done|]. rewrite Hy. vm_compute. reflexivity.
Defined.

Lemma windows_end (window_start : Z) (evs : list GenEvent) :
  windows window_start evs →
  ∃ evs0 ws, evs = evs0 ++ [ClearUpdates ws 0].
Proof.
  induction 1 as [ws | ws we page rest _ _ _ (evs0 & ws' & ->)].
  - by exists [], ws.
  - exists (map Yield page ++ ClearUpdates ws we :: evs0), ws'.
    by rewrite <- app_assoc.
Qed.

(** X6. Where SQLAlchemy gives no truth value to the clause
    [Inode.size <= window_start], a dedup pass over a volume set with
    at least one size group does not return: given the turns that the
    generator needs, it ends with an exception, at the latest the one
    of the call of [clear_updates] that follows the last page. *)
Theorem dedup_tracked_clause_error `{Kernel} `{Mappings} `{Sqlalchemy}
    (volume_of : Z → Volume) (fuel : nat) (vol_fs : Volume → Z)
    (volset : list Volume) (rlimit : Z * Z) (store : Store) :
  (∀ window_start, ∃ e, clause_bool window_start = Raise e) →
  comm1_rows store (map vol_id volset) ≠ [] →
  (length (comm1_rows store (map vol_id volset)) < fuel)%nat →
  ∃ e, dedup_tracked volume_of fuel vol_fs volset rlimit store
       = Some (Raise e).
Proof.
  intros Hclause Hne Hfuel. unfold dedup_tracked.
  destruct volset as [|vol0 volset']; [by eexists|].
  destruct (negb (forallb _ _)); [by eexists|].
  set (query := comm1_rows store (map vol_id (vol0 :: volset'))) in *.
  destruct (Nat.eqb_spec (length query) 0) as [Hlen|_].
  { by destruct query. }
  destruct (initial_window_start store) as [ws|e]; [|by eexists].
  destruct (windowed_query_run query WINDOW_SIZE fuel ws)
    as (evs & Hrun & Hw).
  { pose proof (length_filter (fun el => c1_size el <=? ws) query). lia. }
  rewrite Hrun. simpl.
  apply windows_end in Hw as (evs0 & ws' & ->).
  unfold dedup_tracked1. rewrite for_each_app.
  destruct (for_each _ evs0 _) as [st1|e]; [|by eexists].
  rewrite result_bind_ok, for_each_cons.
  destruct (Hclause ws') as [e He].
  exists e. by rewrite (clear_updates_raises _ _ _ _ e He).
Qed.

Lemma dedup_tracked_clause_error_witness :
  dedup_tracked (H := ex_kernel_busy) (H0 := ex_mappings) (H1 := ex_sqlalchemy)
    (fun _ => ex_vol) 3 (fun _ => 1) [ex_vol] (1024, 4096) ex_two_volumes
  = Some (Raise TypeError).
Proof.
  destruct (dedup_tracked_clause_error (H := ex_kernel_busy)
              (H0 := ex_mappings) (H1 := ex_sqlalchemy)
              (fun _ => ex_vol) 3 (fun _ => 1) [ex_vol] (1024, 4096)
              ex_two_volumes) as [e He].
  - intros ws. by exists TypeError.
  - intros Hnil. vm_compute in Hnil. discriminate.
  - vm_compute. lia.
  - rewrite He. vm_compute in He. by injection He as <-.
Defined.

(** ** The deduper, beyond the budget and the events *)

Section Kept.
Variable ofile_hard : Z.

Lemma kept_refl (st : Session) : kept ofile_hard st st.
Proof.
  split; [|split; [lia|done]].
  intros key row' Hrow. by exists row'.
Qed.

Lemma kept_trans (a b c : Session) :
  kept ofile_hard a b → kept ofile_hard b c → kept ofile_hard a c.
Proof.
  intros [Hab [Hab1 Hab2]] [Hbc [Hbc1 Hbc2]]. split; [|split; [lia|auto]].
  intros key row'' Hrow''.
  destruct (Hbc key row'' Hrow'') as (row' & Hrow' & Hs' & Hu').
  destruct (Hab key row' Hrow') as (row & Hrow & Hs & Hu).
  exists row. split; [done|]. split; congruence.
Qed.

Lemma kept_same (st st' : Session) :
  inodes st' = inodes st → ofile_soft st' = ofile_soft st →
  kept ofile_hard st st'.
Proof.
  intros Hi Hs. split; [|split; [lia|rewrite Hs; done]].
  intros key row' Hrow. rewrite Hi in Hrow. by exists row'.
Qed.

Lemma kept_delete (key : InodeRef) (st : Session) :
  kept ofile_hard st (with_inodes (delete key) st).
Proof.
  split; [|split; [simpl; lia|done]].
  intros k row' Hrow. simpl in Hrow.
  apply lookup_delete_Some in Hrow as [_ Hrow]. by exists row'.
Qed.

Lemma kept_alter (f : Inode → Inode) (key : InodeRef) (st : Session) :
  (∀ row, size (f row) = size row ∧ has_updates (f row) = has_updates row) →
  kept ofile_hard st (with_inodes (alter f key) st).
Proof.
  intros Hf. split; [|split; [simpl; lia|done]].
  intros k row' Hrow. simpl in Hrow. rewrite lookup_alter in Hrow.
  destruct (decide (key = k)) as [->|Hne]; [|by exists row'].
  destruct (inodes st !! k) as [row|]; [|done].
  injection Hrow as <-. exists row. split; [done|]. apply Hf.
Qed.
End Kept.

Section DeduperKept.
Context `{Kernel} `{Mappings}.
Variable volume_of : Z → Volume.
Variable ofile_hard : Z.

Lemma mini_hash_step_kept (st st' : Session) (inode : InodeRef) :
  mini_hash_step volume_of st inode = Ok st' → kept ofile_hard st st'.
Proof.
  intros Hstep.
  destruct (mini_hash_step_inv _ _ _ _ Hstep)
    as [(_ & ->) | (_ & h & _ & ->)]; [apply kept_delete|].
  eapply kept_trans; [by apply (kept_alter _ (set_mini_hash h) inode)|].
  by apply kept_same.
Qed.

Lemma fiemap_hash_step_kept (st st' : Session) (inode : InodeRef) :
  fiemap_hash_step volume_of st inode = Ok st' → kept ofile_hard st st'.
Proof.
  unfold fiemap_hash_step, fiemap_hash_from_file.
  destruct (lookup_ino_path_one _ _) as [path|e].
  - destruct (fopenat _ _) as [rfd|e]; [|done].
    intros [= <-]. by apply kept_alter.
  - destruct (negb (e =? ENOENT)); [done|].
    intros [= <-]. apply kept_delete.
Qed.

Lemma open_step_kept (acc acc' : Session * Opened) (inode : InodeRef) :
  open_step volume_of acc inode = Ok acc' → kept ofile_hard acc.1 acc'.1.
Proof.
  destruct acc as [st op]. rewrite open_step_outcome.
  destruct (open_outcome volume_of inode); intros [= <-]; simpl.
  - apply kept_delete.
  - by apply kept_same.
  - by apply kept_same.
Qed.

Lemma hash_step_kept (comm3 : Commonality3) (in_write_use : list Z)
    (fdi : gmap Z InodeRef) (acc acc' : Session * gmap Z (list Z)) (fd : Z) :
  hash_step volume_of comm3 in_write_use fdi acc fd = Ok acc' →
  kept ofile_hard acc.1 acc'.1.
Proof.
  destruct acc as [st by_hash]. unfold hash_step.
  destruct (fdi !! fd) as [inode|]; [|done].
  repeat match goal with
    | |- (if ?b then _ else _) = _ → _ => destruct b
    end;
    intros [= <-]; simpl;
    first [ apply kept_delete | by apply kept_same | apply kept_refl ].
Qed.

Lemma clone_loop_kept (sfd : Z) (dfiles : list Z) (st st' : Session)
    (successful successful' : list Z) :
  clone_loop sfd dfiles st successful = Ok (st', successful') →
  kept ofile_hard st st'.
Proof.
  revert st successful. induction dfiles as [|dfd dfiles IH];
    intros st successful Hrun; simpl in Hrun.
  { injection Hrun as <- _. apply kept_refl. }
  destruct (cmp_files sfd dfd) as [[|]|e]; [|done..].
  simpl in Hrun.
  eapply kept_trans; [apply (kept_same _ st (add_call (CallClone dfd sfd) st)); done|].
  destruct (clone_data dfd sfd) as [[|]|e]; [| |done]; by eapply IH.
Qed.

Lemma dedup_fileset_kept (comm3 : Commonality3) (fdi : gmap Z InodeRef)
    (st st' : Session) (fileset : list Z) :
  dedup_fileset comm3 fdi st fileset = Ok st' → kept ofile_hard st st'.
Proof.
  unfold dedup_fileset.
  destruct (length fileset <? 2)%nat; [intros [= <-]; apply kept_refl|].
  destruct fileset as [|sfd dfiles]; [intros [= <-]; apply kept_refl|].
  destruct (clone_loop sfd dfiles st []) as [[st1 successful]|e] eqn:Hloop;
    [|done].
  rewrite result_bind_ok. cbn [fst snd].
  apply clone_loop_kept in Hloop.
  destruct successful as [|d successful]; [by intros [= <-]|].
  destruct (inodes_of_files fdi (sfd :: d :: successful)) as [evti|e];
    [|done].
  rewrite result_bind_ok. intros [= <-].
  eapply kept_trans; [exact Hloop|]. by apply kept_same.
Qed.

Lemma process_comm3_kept (comm3 : Commonality3) (st st' : Session) :
  process_comm3 volume_of comm3 st = Ok st' → kept ofile_hard st st'.
Proof.
  unfold process_comm3.
  destruct (for_each (open_step volume_of) _ _) as [a|e] eqn:Hopen; [|done].
  rewrite result_bind_ok.
  destruct (for_each (hash_step volume_of comm3 _ _) _ _) as [b|e] eqn:Hhash;
    [|done].
  rewrite result_bind_ok. intros Hclone.
  apply (for_each_rel (fun a b => kept ofile_hard a.1 b.1)) in Hopen;
    [|intros; apply kept_refl | intros ???; apply kept_trans
     | intros s x s'; apply open_step_kept].
  apply (for_each_rel (fun a b => kept ofile_hard a.1 b.1)) in Hhash;
    [|intros; apply kept_refl | intros ???; apply kept_trans
     | intros s x s'; apply hash_step_kept].
  apply (for_each_rel (kept ofile_hard)) in Hclone;
    [|apply kept_refl | apply kept_trans | intros s x s'; apply dedup_fileset_kept].
  simpl in Hopen, Hhash.
  eapply kept_trans; [exact Hopen|]. by eapply kept_trans.
Qed.

Lemma dedup_comm3_kept (ofile_reserved : Z) (comm3 : Commonality3)
    (st st' : Session) :
  dedup_comm3 volume_of ofile_reserved ofile_hard comm3 st = Ok st' →
  kept ofile_hard st st'.
Proof.
  unfold dedup_comm3.
  destruct (Z.gtb_spec (ofile_req ofile_reserved comm3) (ofile_soft st)).
  - destruct (Z.leb_spec (ofile_req ofile_reserved comm3) ofile_hard).
    + intros Hrun%process_comm3_kept.
      eapply kept_trans; [|exact Hrun].
      split; [|split; simpl; [lia|done]].
      intros key row' Hrow. by exists row'.
    + intros [= <-]. by apply kept_same.
  - apply process_comm3_kept.
Qed.

Lemma dedup_comm2_kept (ofile_reserved : Z) (comm2 : Commonality2)
    (st st' : Session) :
  dedup_comm2 volume_of ofile_reserved ofile_hard st comm2 = Ok st' →
  kept ofile_hard st st'.
Proof.
  unfold dedup_comm2.
  destruct (for_each (fiemap_hash_step volume_of) _ _) as [st1|e] eqn:Hhash;
    [|done].
  rewrite result_bind_ok.
  apply (for_each_rel (kept ofile_hard)) in Hhash;
    [|apply kept_refl | apply kept_trans | intros s x s'; apply fiemap_hash_step_kept].
  destruct (comm3_of (inodes st1) comm2) as [|comm3 [|? ?]]; [| |done].
  - by intros [= <-].
  - intros Hrun%dedup_comm3_kept. by eapply kept_trans.
Qed.

Lemma dedup_comm1_kept (ofile_reserved : Z) (comm1 : Commonality1)
    (st st' : Session) :
  dedup_comm1 volume_of ofile_reserved ofile_hard st comm1 = Ok st' →
  kept ofile_hard st st'.
Proof.
  unfold dedup_comm1.
  destruct (for_each (mini_hash_step volume_of) _ _) as [st1|e] eqn:Hhash;
    [|done].
  rewrite result_bind_ok. intros Hrun.
  apply (for_each_rel (kept ofile_hard)) in Hhash;
    [|apply kept_refl | apply kept_trans | intros s x s'; apply mini_hash_step_kept].
  apply (for_each_rel (kept ofile_hard)) in Hrun;
    [|apply kept_refl | apply kept_trans
     | intros s x s'; apply dedup_comm2_kept].
  by eapply kept_trans.
Qed.
End DeduperKept.

(** X7. What the deduper does for a size group, hashing, opening,
    cloning, never adds a row to the [inode] table and never changes the
    size or the [has_updates] flag of a row: it can only delete rows
    and record hashes.  The flags change in [clear_updates] alone. *)
Theorem deduper_rows `{Kernel} `{Mappings} (volume_of : Z → Volume)
    (ofile_reserved ofile_hard : Z) (comm1 : Commonality1)
    (st st' : Session) :
  dedup_comm1 volume_of ofile_reserved ofile_hard st comm1 = Ok st' →
  ∀ key row', inodes st' !! key = Some row' →
    ∃ row, inodes st !! key = Some row
           ∧ size row' = size row ∧ has_updates row' = has_updates row.
Proof. intros Hrun. by apply dedup_comm1_kept in Hrun as [Hrows _]. Qed.

Lemma deduper_rows_witness :
  ∃ st',
    dedup_comm1 (H := ex_kernel) (H0 := ex_mappings) (fun _ => ex_vol)
      8 4096 ex_session ex_comm1 = Ok st'
    ∧ ∀ key row', inodes st' !! key = Some row' →
        ∃ row, ex_two_volumes !! key = Some row
               ∧ size row' = size row ∧ has_updates row' = has_updates row.
Proof.
  destruct (dedup_comm1 (H := ex_kernel) (H0 := ex_mappings) (fun _ => ex_vol)
              8 4096 ex_session ex_comm1) as [st'|e] eqn:Hrun;
    [|vm_compute in Hrun; discriminate].
  exists st'. split; [reflexivity|].
  apply (deduper_rows (H := ex_kernel) (H0 := ex_mappings) _ _ _ _ _ _ Hrun).
Defined.

(** X8. Over a whole dedup pass the soft limit on open files never
    decreases and, starting at or below the hard limit, never goes
    above it. *)
Theorem soft_limit_bounds `{Kernel} `{Mappings} `{Sqlalchemy}
    (volume_of : Z → Volume)
    (vol_ids : list Z) (ofile_reserved ofile_hard : Z)
    (query : list GenEvent) (st st' : Session) :
  dedup_tracked1 volume_of vol_ids ofile_reserved ofile_hard query st = Ok st' →
  ofile_soft st <= ofile_hard →
  ofile_soft st <= ofile_soft st' <= ofile_hard.
Proof.
  intros Hrun Hle. unfold dedup_tracked1 in Hrun.
  apply (for_each_rel (limit_kept ofile_hard)) in Hrun.
  - destruct Hrun as [? Hhard]. split; [done | by apply Hhard].
  - intros s. split; [lia|done].
  - intros a b c [? ?] [? ?]. split; [lia|auto].
  - intros s [comm1|ws we] s' Hstep.
    + by apply (dedup_comm1_kept volume_of ofile_hard) in Hstep as [_ ?].
    + apply clear_updates_lookup in Hstep as (_ & _ & _ & _ & _ & Hsoft & _).
      split; [lia | by rewrite Hsoft].
Qed.

Lemma soft_limit_bounds_witness :
  ∃ st',
    dedup_tracked1 (H := ex_kernel) (H0 := ex_mappings) (H1 := ex_sqlalchemy)
      (fun _ => ex_vol) [1] 8 4096 [Yield ex_comm1]
      (mkSession ex_two_volumes [] [] 10 []) = Ok st'
    ∧ 10 <= ofile_soft st' <= 4096.
Proof.
  destruct (dedup_tracked1 (H := ex_kernel) (H0 := ex_mappings)
              (H1 := ex_sqlalchemy) (fun _ => ex_vol) [1] 8 4096
              [Yield ex_comm1]
              (mkSession ex_two_volumes [] [] 10 [])) as [st'|e] eqn:Hrun;
    [|vm_compute in Hrun; discriminate].
  exists st'. split; [reflexivity|].
  apply (soft_limit_bounds (H := ex_kernel) (H0 := ex_mappings)
           (H1 := ex_sqlalchemy) _ _ _ _ _ _ _ Hrun).
  simpl. lia.
Defined.

Section HashPhase.
Context `{Kernel}.
Variable volume_of : Z → Volume.
Variable comm3 : Commonality3.
Variable in_write_use : list Z.
Variable fdi : gmap Z InodeRef.

(** What was checked of a file before it was put in a bucket. *)
Let checked (digest fd : Z) : Prop :=
  (fd ∉ in_write_use)
  ∧ sha1_digest fd = digest
  ∧ tell fd = c3_size comm3
  ∧ ∃ inode, fdi !! fd = Some inode
             ∧ fst (fstat fd) = inode.2
             ∧ snd (fstat fd) = vol_st_dev (volume_of inode.1).

Lemma hash_step_checked (all : list Z) (st st' : Session)
    (by_hash by_hash' : gmap Z (list Z)) (fd0 : Z) :
  hash_step volume_of comm3 in_write_use fdi (st, by_hash) fd0
  = Ok (st', by_hash') →
  fd0 ∈ all →
  (∀ digest fileset fd, by_hash !! digest = Some fileset → fd ∈ fileset →
     fd ∈ all ∧ checked digest fd) →
  ∀ digest fileset fd, by_hash' !! digest = Some fileset → fd ∈ fileset →
    fd ∈ all ∧ checked digest fd.
Proof.
  intros Hstep Hall Hinv. unfold hash_step in Hstep.
  destruct (fdi !! fd0) as [inode|] eqn:Hfd0; [|done].
  destruct (bool_decide (fd0 ∈ in_write_use)) eqn:Huse;
    [by injection Hstep as <- <-|].
  destruct (Z.eqb_spec (fstat fd0).1 inode.2) as [Hino|_];
    [|by injection Hstep as <- <-].
  destruct (Z.eqb_spec (fstat fd0).2 (vol_st_dev (volume_of inode.1)))
    as [Hdev|_]; [|by injection Hstep as <- <-].
  destruct (Z.eqb_spec (tell fd0) (c3_size comm3)) as [Hsz|_].
  2: { simpl in Hstep.
       destruct (tell fd0 <? _); by injection Hstep as <- <-. }
  simpl in Hstep. injection Hstep as <- <-.
  intros digest fileset fd Hd Hin.
  destruct (decide (sha1_digest fd0 = digest)) as [<-|Hne].
  - rewrite lookup_insert_eq in Hd. injection Hd as <-.
    apply elem_of_app in Hin as [Hin|Hin].
    + destruct (by_hash !! sha1_digest fd0) as [l|] eqn:Hl; simpl in Hin.
      * by eapply Hinv.
      * by apply elem_of_nil in Hin.
    + apply list_elem_of_singleton in Hin as ->.
      split; [done|]. split_and!; try done.
      * by apply bool_decide_eq_false in Huse.
      * by exists inode.
  - rewrite lookup_insert_ne in Hd by done. by eapply Hinv.
Qed.

Lemma hash_phase_checked (all fds : list Z) (st st' : Session)
    (by_hash by_hash' : gmap Z (list Z)) :
  for_each (hash_step volume_of comm3 in_write_use fdi) fds (st, by_hash)
  = Ok (st', by_hash') →
  (∀ fd, fd ∈ fds → fd ∈ all) →
  (∀ digest fileset fd, by_hash !! digest = Some fileset → fd ∈ fileset →
     fd ∈ all ∧ checked digest fd) →
  ∀ digest fileset fd, by_hash' !! digest = Some fileset → fd ∈ fileset →
    fd ∈ all ∧ checked digest fd.
Proof.
  revert st by_hash. induction fds as [|fd0 fds IH];
    intros st by_hash Hrun Hsub Hinv.
  { by injection Hrun as <- <-. }
  rewrite for_each_cons in Hrun.
  destruct (hash_step volume_of comm3 in_write_use fdi (st, by_hash) fd0)
    as [[st1 by_hash1]|e] eqn:Hstep; [|done].
  rewrite result_bind_ok in Hrun.
  apply (IH st1 by_hash1 Hrun).
  - intros fd Hfd. apply Hsub. by right.
  - eapply hash_step_checked; [exact Hstep | apply Hsub; by left | exact Hinv].
Qed.
End HashPhase.

(** X9. Every file that the hashing of a cohort puts in a bucket is one
    of the opened files, was not in write use when the files were made
    immutable, has the digest of the bucket, was read to exactly the
    size of the cohort, and is, by [fstat], the inode and the device
    that its row names. *)
Theorem hash_phase_buckets `{Kernel} (volume_of : Z → Volume)
    (comm3 : Commonality3) (in_write_use : list Z) (fdi : gmap Z InodeRef)
    (fds : list Z) (st st' : Session) (by_hash' : gmap Z (list Z)) :
  for_each (hash_step volume_of comm3 in_write_use fdi) fds (st, ∅)
  = Ok (st', by_hash') →
  ∀ digest fileset fd, by_hash' !! digest = Some fileset → fd ∈ fileset →
    fd ∈ fds
    ∧ (fd ∉ in_write_use)
    ∧ sha1_digest fd = digest
    ∧ tell fd = c3_size comm3
    ∧ ∃ inode, fdi !! fd = Some inode
               ∧ fst (fstat fd) = inode.2
               ∧ snd (fstat fd) = vol_st_dev (volume_of inode.1).
Proof.
  intros Hrun.
  apply (hash_phase_checked volume_of comm3 in_write_use fdi fds fds
           st st' ∅ by_hash' Hrun); [done|].
  intros digest fileset fd Hd. by rewrite lookup_empty in Hd.
Qed.

Lemma hash_phase_buckets_witness :
  ∃ st' by_hash',
    for_each (hash_step (H := ex_kernel) (fun _ => ex_vol) ex_comm3 [358]
                ex_fd_inodes) [357; 358; 359] (ex_session, ∅)
    = Ok (st', by_hash')
    ∧ by_hash' !! 7 = Some [357; 359]
    ∧ (359 ∉ [358])
    ∧ tell (Kernel := ex_kernel) 359 = 10485760.
Proof.
  destruct (for_each (hash_step (H := ex_kernel) (fun _ => ex_vol) ex_comm3
                        [358] ex_fd_inodes) [357; 358; 359] (ex_session, ∅))
    as [[st' by_hash']|e] eqn:Hrun; [|vm_compute in Hrun; discriminate].
  exists st', by_hash'. split; [reflexivity|].
  pose proof (hash_phase_buckets (H := ex_kernel) _ _ _ _ _ _ _ _ Hrun) as Hb.
  assert (Hbucket : by_hash' !! 7 = Some [357; 359]).
  { vm_compute in Hrun. by injection Hrun as <- <-. }
  split; [done|].
  destruct (Hb 7 [357; 359] 359 Hbucket) as (_ & Huse & _ & Htell & _).
  { right. by left. }
  by split.
Defined.

Section CloneSafety.
Context `{Kernel}.

Lemma clone_loop_compared (sfd : Z) (dfiles : list Z) (st st' : Session)
    (successful successful' : list Z) :
  clone_loop sfd dfiles st successful = Ok (st', successful') →
  Forall (clone_returns sfd) dfiles.
Proof.
  revert st successful. induction dfiles as [|dfd dfiles IH];
    intros st successful Hrun; [constructor|].
  simpl in Hrun. destruct (cmp_files sfd dfd) as [[|]|e] eqn:Hcmp; [|done..].
  simpl in Hrun.
  destruct (clone_data dfd sfd) as [b|e] eqn:Hclone; [|done].
  constructor; [split; [done | by exists b]|].
  destruct b; by eapply IH.
Qed.

Lemma inodes_of_files_length (fdi : gmap Z InodeRef) (fds : list Z)
    (evti : list InodeRef) :
  inodes_of_files fdi fds = Ok evti → length evti = length fds.
Proof.
  revert evti. induction fds as [|fd fds IH]; intros evti Hrun; simpl in Hrun.
  { by injection Hrun as <-. }
  destruct (fdi !! fd) as [inode|]; [|done].
  destruct (inodes_of_files fdi fds) as [l|e]; [|done].
  rewrite result_bind_ok in Hrun. injection Hrun as <-. simpl.
  f_equal. by apply IH.
Qed.
End CloneSafety.

(** X10. When the clone step of a bucket returns: a bucket of fewer
    than two files was left alone; otherwise every destination had
    compared equal to the source, and [clone_data] was called once for
    each of them and for nothing else, in their order, and returned;
    and the events are as before or one more, with the size of the
    cohort and at least two inodes. *)
Theorem clone_after_compare `{Kernel} (comm3 : Commonality3)
    (fdi : gmap Z InodeRef) (st st' : Session) (fileset : list Z) :
  dedup_fileset comm3 fdi st fileset = Ok st' →
  ((length fileset < 2)%nat → st' = st)
  ∧ ∀ sfd dfiles, fileset = sfd :: dfiles → dfiles ≠ [] →
      Forall (fun dfd => cmp_files sfd dfd = Ok true) dfiles
      ∧ Forall (fun dfd => ∃ b, clone_data dfd sfd = Ok b) dfiles
      ∧ calls st' = calls st ++ map (fun dfd => CallClone dfd sfd) dfiles
      ∧ (dedup_events st' = dedup_events st
         ∨ ∃ evti, dedup_events st'
                   = dedup_events st ++ [mkDedupEvent (c3_size comm3) evti]
                   ∧ (2 <= length evti)%nat).
Proof.
  intros Hrun. split.
  - intros Hlen. unfold dedup_fileset in Hrun.
    destruct (Nat.ltb_spec (length fileset) 2); [|lia].
    by injection Hrun as <-.
  - intros sfd dfiles -> Hne.
    destruct dfiles as [|dfd dfiles]; [done|].
    rewrite dedup_fileset_unfold in Hrun.
    destruct (clone_loop sfd (dfd :: dfiles) st []) as [[st1 successful]|e]
      eqn:Hloop; [|done].
    rewrite result_bind_ok in Hrun. cbn [fst snd] in Hrun.
    pose proof (clone_loop_compared _ _ _ _ _ _ Hloop) as Hcmp.
    destruct (clone_loop_equal sfd (dfd :: dfiles) st [] Hcmp)
      as (st1' & Hloop' & Hcalls & Hev & _).
    rewrite Hloop in Hloop'. injection Hloop' as <- _.
    split; [by eapply Forall_impl; [exact Hcmp | intros ? [? _]]|].
    split; [by eapply Forall_impl; [exact Hcmp | intros ? [_ ?]]|].
    destruct successful as [|d successful].
    + injection Hrun as <-. split; [done|]. by left.
    + destruct (inodes_of_files fdi (sfd :: d :: successful)) as [evti|e]
        eqn:Hevti; [|done].
      rewrite result_bind_ok in Hrun. injection Hrun as <-.
      split; [done|]. right. exists evti. simpl. rewrite Hev.
      split; [done|].
      apply inodes_of_files_length in Hevti. rewrite Hevti. simpl. lia.
Qed.

Lemma clone_after_compare_witness :
  ∃ st',
    dedup_fileset (H := ex_kernel_shared) ex_comm3 ex_fd_inodes ex_session
      [357; 358; 359] = Ok st'
    ∧ Forall (fun dfd => cmp_files (Kernel := ex_kernel_shared) 357 dfd
                         = Ok true)
             [358; 359]
    ∧ calls st' = [CallClone 358 357; CallClone 359 357].
Proof.
  destruct (dedup_fileset (H := ex_kernel_shared) ex_comm3 ex_fd_inodes
              ex_session [357; 358; 359]) as [st'|e] eqn:Hrun;
    [|vm_compute in Hrun; discriminate].
  exists st'. split; [reflexivity|].
  destruct (clone_after_compare (H := ex_kernel_shared) _ _ _ _ _ Hrun)
    as [_ Hbucket].
  destruct (Hbucket 357 [358; 359] eq_refl) as (Hcmp & _ & Hcalls & _); [done|].
  by split.
Defined.

(** X11. In the pass that hashes the heads of the files of a size
    group, a file whose path resolves but that cannot be opened ends the
    run with the error of the open, whatever its errno: the errors that
    only skip an inode when a cohort is opened are not caught here. *)
Theorem mini_hash_open_error `{Kernel} (volume_of : Z → Volume)
    (before after : list InodeRef) (inode : InodeRef) (st st1 : Session)
    (path e : Z) :
  for_each (mini_hash_step volume_of) before st = Ok st1 →
  lookup_ino_path_one (vol_fd (volume_of inode.1)) inode.2 = inl path →
  fopenat (vol_fd (volume_of inode.1)) path = inr e →
  for_each (mini_hash_step volume_of) (before ++ inode :: after) st
  = Raise (IOError e).
Proof.
  intros Hbefore Hpath Hopen.
  rewrite for_each_app, Hbefore, result_bind_ok, for_each_cons.
  unfold mini_hash_step. by rewrite Hpath, Hopen.
Qed.

Lemma mini_hash_open_error_witness :
  for_each (mini_hash_step (H := ex_kernel_unreadable) (fun _ => ex_vol))
    [(1, 257); (1, 258)] ex_hashed_session = Raise (IOError ENOENT)
  ∧ open_outcome (H := ex_kernel_unreadable) (fun _ => ex_vol) (1, 258)
    = OpenSkipped.
Proof.
  split; [|reflexivity].
  destruct (for_each (mini_hash_step (H := ex_kernel_unreadable)
                        (fun _ => ex_vol)) [(1, 257)] ex_hashed_session)
    as [st1|e] eqn:Hbefore; [|vm_compute in Hbefore; discriminate].
  by apply (mini_hash_open_error (H := ex_kernel_unreadable) (fun _ => ex_vol)
              [(1, 257)] [] (1, 258) ex_hashed_session st1 258 ENOENT Hbefore).
Defined.

(** X12. A record that the tree search returns twice is harmless:
    tracking it a second time leaves the [inode] table as the first
    time left it. *)
Theorem track_item_twice `{Kernel} (vol : Volume) (min_gen : Z)
    (store : Store) (it : SearchItem) :
  track_item vol min_gen (track_item vol min_gen store it) it
  = track_item vol min_gen store it.
Proof.
  unfold track_item.
  destruct (sh_type it =? BTRFS_INODE_ITEM_KEY); [|done].
  destruct (filtered_out vol min_gen it); [done|].
  unfold get_or_create.
  destruct (lookup_ino_path_one (vol_fd vol) (sh_objectid it)) as [path|e].
  - destruct (store !! (vol_id vol, sh_objectid it)) as [row|] eqn:Hrow;
      rewrite lookup_insert_eq; simpl; by rewrite insert_insert_eq.
  - destruct (store !! (vol_id vol, sh_objectid it)) as [row|] eqn:Hrow.
    + rewrite lookup_delete_eq. done.
    + by rewrite Hrow.
Qed.
